(** * airsigner/libcrypto: fixed-point coin values and address checks

    A shallow embedding of [types/value.go] (the generic [CoinValue]
    engine), of the Ether binding and of [chains/eth/address.go], together
    with the parts of [math/big], [shopspring/decimal] and [regexp] that
    those files call.

    Go objects reached through pointers ([*big.Int], [*CoinValue[D]]) live
    in an explicit store; methods are state-passing functions that may
    panic. *)

From Stdlib Require Import ZArith QArith Qround Qabs Qpower String Ascii List Lia Bool.
From stdpp Require Import base list.
Import ListNotations.

Local Open Scope Z_scope.

(** ** Panics and the store *)

Module Go.

(** The value carried by a Go panic. *)
Inductive panic : Type :=
| PanicString (msg : string)        (* panic("...") with a string *)
| PanicExponentOverflow (e : Z)     (* panic(fmt.Sprintf("exponent %v overflows an int32!", e)) *)
| PanicNilDeref.                    (* runtime error: nil pointer dereference *)

(** How a call ends: it returns to its caller with a value, or it panics
    and unwinds. *)
Inductive outcome (A : Type) : Type :=
| Ret (a : A)
| Panic (p : panic).
Arguments Ret {A} a.
Arguments Panic {A} p.

Definition returns {A} (o : outcome A) : Prop :=
  match o with Ret _ => True | Panic _ => False end.

(** A pointer: [None] is [nil], [Some l] the address of a cell. *)
Definition ptr := option nat.

(** [ValueDefinition]: the two methods of the interface, as data. In the
    source the definition is the zero value of the type parameter [D]. *)
Record ValueDefinition : Type := mkDef {
  CoinName : string;
  UnitExp : Z            (* int32 *)
}.

(** [CoinValue[D]]: the struct, with its pointer to a [big.Int]. *)
Record CoinValue : Type := mkCoin {
  def : ValueDefinition;
  value : ptr
}.

(** The store: [big.Int] cells and [CoinValue] structs, each allocated at
    the next free index. *)
Record heap : Type := mkHeap {
  ints : list Z;
  coins : list CoinValue
}.

Definition empty_heap : heap := mkHeap [] [].

(** Computations over the store that may panic. The store at the point of
    the panic is kept. *)
Definition M (A : Type) : Type := heap -> outcome A * heap.

Definition ret {A} (a : A) : M A := fun h => (Ret a, h).
Definition throw {A} (p : panic) : M A := fun h => (Panic p, h).
Definition bind {A B} (m : M A) (k : A -> M B) : M B :=
  fun h => match m h with
           | (Ret a, h') => k a h'
           | (Panic p, h') => (Panic p, h')
           end.

(** A call that does not touch the store. *)
Definition lift {A} (o : outcome A) : M A := fun h => (o, h).

End Go.

Import Go.

Declare Scope go_scope.
Delimit Scope go_scope with go.
Notation "'do' x <- m ; k" := (bind m (fun x => k))
  (at level 10, x name, m at level 100, k at level 200) : go_scope.
Notation "'do' '_' <- m ; k" := (bind m (fun _ => k))
  (at level 10, m at level 100, k at level 200) : go_scope.
Local Open Scope go_scope.

(** ** math/big *)

Module Big.

(** A fresh cell holding [x]. *)
Definition alloc (x : Z) : M ptr :=
  fun h => (Ret (Some (length (ints h))), mkHeap (ints h ++ [x]) (coins h)).

(** [new(big.Int)]: a fresh cell holding zero. *)
Definition new_Int : M ptr := alloc 0.

(** Reading the number behind a pointer; a nil receiver or argument is a
    nil dereference. Go has no pointer to a cell that was never allocated;
    an address outside the store is treated like [nil]. *)
Definition load (p : ptr) : M Z :=
  fun h => match p with
           | None => (Panic PanicNilDeref, h)
           | Some l => match ints h !! l with
                       | Some z => (Ret z, h)
                       | None => (Panic PanicNilDeref, h)
                       end
           end.

(** Overwriting the number behind a pointer ([z.abs, z.neg = ...]). *)
Definition store (p : ptr) (z : Z) : M unit :=
  fun h => match p with
           | None => (Panic PanicNilDeref, h)
           | Some l => if decide (l < length (ints h))%nat
                       then (Ret tt, mkHeap (<[l := z]> (ints h)) (coins h))
                       else (Panic PanicNilDeref, h)
           end.

(** [big.NewInt(x)]. *)
Definition NewInt (x : Z) : M ptr := alloc x.

(** [z.Add(x, y)]: sets [z] to [x + y] and returns [z]. *)
Definition Add (z x y : ptr) : M ptr :=
  do a <- load x ; do b <- load y ; do _ <- store z (a + b) ; ret z.

(** [z.Sub(x, y)]. *)
Definition Sub (z x y : ptr) : M ptr :=
  do a <- load x ; do b <- load y ; do _ <- store z (a - b) ; ret z.

(** [z.Mul(x, y)]. *)
Definition Mul (z x y : ptr) : M ptr :=
  do a <- load x ; do b <- load y ; do _ <- store z (a * b) ; ret z.

(** [QuoRem] on numbers: truncated division, the remainder has the sign
    of the dividend. *)
Definition quo (a b : Z) : Z := Z.quot a b.
Definition rem (a b : Z) : Z := Z.rem a b.

(** [Div] on numbers, as [Int.Div] computes it from [QuoRem]:
<<
	y_neg := y.neg
	var r Int
	z.QuoRem(x, y, &r)
	if r.neg { if y_neg { z.Add(z, intOne) } else { z.Sub(z, intOne) } }
>>
    This is Euclidean division: the remainder is never negative. *)
Definition div (a b : Z) : Z :=
  let q := quo a b in
  let r := rem a b in
  if r <? 0 then (if b <? 0 then q + 1 else q - 1) else q.

(** [z.Div(x, y)]: panics on a zero divisor. *)
Definition Div (z x y : ptr) : M ptr :=
  do a <- load x ; do b <- load y ;
  if b =? 0 then throw (PanicString "division by zero")
  else do _ <- store z (div a b) ; ret z.

End Big.

(** ** shopspring/decimal

    A [Decimal] is [value * 10 ^ exp] with an arbitrary-precision [value]
    and an int32 [exp]. The library never shares the [big.Int] of a
    decimal it returns with one it was given, so decimals are values
    here. *)

Module Decimal.

Definition MaxInt32 : Z := 2147483647.
Definition MinInt32 : Z := -2147483648.

(** int32 arithmetic wraps around. *)
Definition wrap32 (z : Z) : Z := (z + 2 ^ 31) mod 2 ^ 32 - 2 ^ 31.

Record Decimal : Type := mkDec {
  dvalue : Z;
  dexp : Z               (* int32 *)
}.

(** [decimal.New(value, exp)]. *)
Definition New (value exp : Z) : Decimal := mkDec value exp.

(** [decimal.NewFromBigInt(value, exp)]: copies the number behind
    [value]. *)
Definition NewFromBigInt (value : ptr) (exp : Z) : M Decimal :=
  do z <- Big.load value ; ret (mkDec z exp).

(** [d.rescale(exp)]: the same number at another exponent; going to a
    larger exponent drops digits with [Quo]. *)
Definition rescale (d : Decimal) (exp : Z) : Decimal :=
  if dexp d =? exp then d
  else
    let diff := Z.abs (exp - dexp d) in
    let expScale := 10 ^ diff in
    if exp >? dexp d then mkDec (Big.quo (dvalue d) expScale) exp
    else if exp <? dexp d then mkDec (dvalue d * expScale) exp
    else mkDec (dvalue d) exp.

(** [RescalePair(d1, d2)]: both at the smaller exponent. *)
Definition RescalePair (d1 d2 : Decimal) : Decimal * Decimal :=
  if dexp d1 <? dexp d2 then (d1, rescale d2 (dexp d1))
  else if dexp d1 >? dexp d2 then (rescale d1 (dexp d2), d2)
  else (d1, d2).

(** [d.Abs()]. *)
Definition Abs (d : Decimal) : Decimal := mkDec (Z.abs (dvalue d)) (dexp d).

(** [d.Add(d2)]. *)
Definition Add (d d2 : Decimal) : Decimal :=
  let '(rd, rd2) := RescalePair d d2 in
  mkDec (dvalue rd + dvalue rd2) (dexp rd).

(** [d.Sub(d2)]. *)
Definition Sub (d d2 : Decimal) : Decimal :=
  let '(rd, rd2) := RescalePair d d2 in
  mkDec (dvalue rd - dvalue rd2) (dexp rd).

(** [d.Cmp(d2)]: -1, 0 or 1. *)
Definition Cmp (d d2 : Decimal) : Z :=
  let '(rd, rd2) := if dexp d =? dexp d2 then (d, d2) else RescalePair d d2 in
  match dvalue rd ?= dvalue rd2 with
  | Lt => -1
  | Eq => 0
  | Gt => 1
  end.

(** [d.Mul(d2)]: panics when the sum of the exponents leaves int32. *)
Definition Mul (d d2 : Decimal) : outcome Decimal :=
  let expInt64 := dexp d + dexp d2 in
  if (expInt64 >? MaxInt32) || (expInt64 <? MinInt32)
  then Panic (PanicExponentOverflow expInt64)
  else Ret (mkDec (dvalue d * dvalue d2) expInt64).

(** [d.BigInt()]: the integer part, in a cell of its own. *)
Definition BigInt (d : Decimal) : M ptr :=
  Big.alloc (dvalue (rescale d 0)).

(** [d.QuoRem(d2, precision)]: quotient at exponent [-precision] and
    remainder, by truncated integer division. *)
Definition QuoRem (d d2 : Decimal) (precision : Z) : outcome (Decimal * Decimal) :=
  if dvalue d2 =? 0 then Panic (PanicString "decimal division by 0")
  else
    let scale := wrap32 (- precision) in
    let e := dexp d - dexp d2 - scale in
    if (e >? MaxInt32) || (e <? MinInt32)
    then Panic (PanicString "overflow in decimal QuoRem")
    else
      let '(aa, bb, scalerest) :=
        if e <? 0
        then (dvalue d, dvalue d2 * 10 ^ (- e), dexp d)
        else (dvalue d * 10 ^ e, dvalue d2, wrap32 (scale + dexp d2)) in
      Ret (mkDec (Big.quo aa bb) scale, mkDec (Big.rem aa bb) scalerest).

(** [d.DivRound(d2, precision)]: the quotient, moved one step away from
    zero when twice the remainder reaches the divisor. *)
Definition DivRound (d d2 : Decimal) (precision : Z) : outcome Decimal :=
  match QuoRem d d2 precision with
  | Panic p => Panic p
  | Ret (q, r) =>
      let rv2 := Z.shiftl (Z.abs (dvalue r)) 1 in
      let r2 := mkDec rv2 (wrap32 (dexp r + precision)) in
      let c := Cmp r2 (Abs d2) in
      if c <? 0 then Ret q
      else if Z.sgn (dvalue d) * Z.sgn (dvalue d2) <? 0
           then Ret (Sub q (New 1 (wrap32 (- precision))))
           else Ret (Add q (New 1 (wrap32 (- precision))))
  end.

End Decimal.

(** ** types/value.go *)

Module Types.

(** [&CoinValue[D]{...}]: a fresh struct. *)
Definition new_CoinValue (cv : CoinValue) : M ptr :=
  fun h => (Ret (Some (length (coins h))), mkHeap (ints h) (coins h ++ [cv])).

(** [*v] for a [*CoinValue[D]]. *)
Definition load (v : ptr) : M CoinValue :=
  fun h => match v with
           | None => (Panic PanicNilDeref, h)
           | Some l => match coins h !! l with
                       | Some cv => (Ret cv, h)
                       | None => (Panic PanicNilDeref, h)
                       end
           end.

(** [cv.value = p] through a [*CoinValue[D]]. *)
Definition set_value (v : ptr) (p : ptr) : M unit :=
  fun h => match v with
           | None => (Panic PanicNilDeref, h)
           | Some l => match coins h !! l with
                       | Some cv => (Ret tt, mkHeap (ints h) (<[l := mkCoin (def cv) p]> (coins h)))
                       | None => (Panic PanicNilDeref, h)
                       end
           end.

(** [NewCoinValue[D](value)]: the pointer is kept as it is, [nil] becomes
    a fresh zero. *)
Definition NewCoinValue (D : ValueDefinition) (value : ptr) : M ptr :=
  do p <- match value with
       | None => Big.NewInt 0
       | Some _ => ret value
       end ;
  new_CoinValue (mkCoin D p).

(** [v.Units()]. *)
Definition Units (v : ptr) : M ptr :=
  do cv <- load v ; ret (Go.value cv).

(** [v.CoinName()]. *)
Definition CoinName (v : ptr) : M string :=
  do cv <- load v ; ret (Go.CoinName (def cv)).

(** [v.Same(other)]. *)
Definition Same (v other : ptr) : M bool :=
  do a <- CoinName v ; do b <- CoinName other ; ret (String.eqb a b).

(** [v.Add(other)]. *)
Definition Add (v other : ptr) : M ptr :=
  do same <- Same v other ;
  if negb same then throw (PanicString "cannot add values of different coins")
  else
    do cv <- load v ;
    do z <- Big.new_Int ;
    do u <- Units other ;
    do s <- Big.Add z (Go.value cv) u ;
    new_CoinValue (mkCoin (def cv) s).

(** [v.Sub(other)]. *)
Definition Sub (v other : ptr) : M ptr :=
  do same <- Same v other ;
  if negb same then throw (PanicString "cannot subtract values of different coins")
  else
    do cv <- load v ;
    do z <- Big.new_Int ;
    do u <- Units other ;
    do s <- Big.Sub z (Go.value cv) u ;
    new_CoinValue (mkCoin (def cv) s).

(** [v.Mul(other)]. *)
Definition Mul (v other : ptr) : M ptr :=
  do same <- Same v other ;
  if negb same then throw (PanicString "cannot multiply values of different coins")
  else
    do cv <- load v ;
    do z <- Big.new_Int ;
    do u <- Units other ;
    do s <- Big.Mul z (Go.value cv) u ;
    new_CoinValue (mkCoin (def cv) s).

(** [v.Div(other)]. *)
Definition Div (v other : ptr) : M ptr :=
  do same <- Same v other ;
  if negb same then throw (PanicString "cannot divide values of different coins")
  else
    do cv <- load v ;
    do z <- Big.new_Int ;
    do u <- Units other ;
    do s <- Big.Div z (Go.value cv) u ;
    new_CoinValue (mkCoin (def cv) s).

(** [v.MulScalar(scalar)]. *)
Definition MulScalar (v scalar : ptr) : M ptr :=
  do cv <- load v ;
  do z <- Big.new_Int ;
  do s <- Big.Mul z (Go.value cv) scalar ;
  new_CoinValue (mkCoin (def cv) s).

(** [v.DivScalar(scalar)]. *)
Definition DivScalar (v scalar : ptr) : M ptr :=
  do cv <- load v ;
  do z <- Big.new_Int ;
  do s <- Big.Div z (Go.value cv) scalar ;
  new_CoinValue (mkCoin (def cv) s).

(** [NewCoinValueFromCoins[D](value)]. *)
Definition NewCoinValueFromCoins (D : ValueDefinition) (value : Decimal.Decimal) : M ptr :=
  do cv <- NewCoinValue D None ;
  do c <- load cv ;
  do d <- lift (Decimal.Mul value (Decimal.New 1 (UnitExp (def c)))) ;
  do p <- Decimal.BigInt d ;
  do _ <- set_value cv p ;
  ret cv.

(** [NewCoinValueFromScaled[D](value, exp)]. *)
Definition NewCoinValueFromScaled
    (D : ValueDefinition) (value : Decimal.Decimal) (exp : Z) : M ptr :=
  do cv <- NewCoinValue D None ;
  do c <- load cv ;
  do d <- lift (Decimal.Mul value (Decimal.New 1 (Decimal.wrap32 (UnitExp (def c) - exp)))) ;
  do p <- Decimal.BigInt d ;
  do _ <- set_value cv p ;
  ret cv.

(** [v.Coins()]. *)
Definition Coins (v : ptr) : M Decimal.Decimal :=
  do cv <- load v ;
  do d <- Decimal.NewFromBigInt (Go.value cv) 0 ;
  lift (Decimal.DivRound d (Decimal.New 1 (UnitExp (def cv))) (UnitExp (def cv))).

(** [v.ScaledValue(exp)]. *)
Definition ScaledValue (v : ptr) (exp : Z) : M Decimal.Decimal :=
  do cv <- load v ;
  do d <- Decimal.NewFromBigInt (Go.value cv) 0 ;
  lift (Decimal.DivRound d (Decimal.New 1 exp) (UnitExp (def cv))).

(** The number an amount holds: [*v.Units()]. *)
Definition units_of (h : heap) (v : ptr) : option Z :=
  match fst (bind (Units v) Big.load h) with
  | Ret z => Some z
  | Panic _ => None
  end.

(** The definition an amount is bound to. *)
Definition def_of (h : heap) (v : ptr) : option ValueDefinition :=
  match fst (load v h) with
  | Ret cv => Some (def cv)
  | Panic _ => None
  end.

End Types.

(** ** The Ether binding *)

Module Eth.

Definition ethDefinition : ValueDefinition := mkDef "ETH" 18.

Definition NewEth (ether : Decimal.Decimal) : M ptr :=
  Types.NewCoinValueFromCoins ethDefinition ether.

Definition NewEthFromWei (wei : ptr) : M ptr :=
  Types.NewCoinValue ethDefinition wei.

Definition NewEthFromKWei (kwei : Decimal.Decimal) : M ptr :=
  Types.NewCoinValueFromScaled ethDefinition kwei 3.

Definition NewEthFromMWei (mwei : Decimal.Decimal) : M ptr :=
  Types.NewCoinValueFromScaled ethDefinition mwei 6.

Definition NewEthFromGWeil (gwei : Decimal.Decimal) : M ptr :=
  Types.NewCoinValueFromScaled ethDefinition gwei 9.

Definition Wei (e : ptr) : M ptr := Types.Units e.
Definition KWei (e : ptr) : M Decimal.Decimal := Types.ScaledValue e 3.
Definition MWei (e : ptr) : M Decimal.Decimal := Types.ScaledValue e 6.
Definition GWei (e : ptr) : M Decimal.Decimal := Types.ScaledValue e 9.
Definition Eth (e : ptr) : M Decimal.Decimal := Types.Coins e.

End Eth.

(** ** regexp

    The fragment of Go's [regexp] syntax that [addrRegex] uses. Matching
    works on bytes; the literals and classes of [addrRegex] are ASCII, and a
    byte of a multi-byte rune is never an ASCII byte, so this is what the
    rune-based matcher of Go decides. Without the [m] flag, [^] and [$]
    match only at the two ends of the text. *)

Module Regexp.

Inductive regex : Type :=
| BeginText                                   (* ^ *)
| EndText                                     (* $ *)
| Lit (c : ascii)                             (* a literal character *)
| Class (ranges : list (ascii * ascii))       (* [a-bc-d...] *)
| Cat (r1 r2 : regex)                         (* r1 r2 *)
| Repeat (n : nat) (r : regex).               (* r{n} *)

Definition in_range (x : ascii) (r : ascii * ascii) : bool :=
  (nat_of_ascii (fst r) <=? nat_of_ascii x)%nat
  && (nat_of_ascii x <=? nat_of_ascii (snd r))%nat.

Definition in_class (ranges : list (ascii * ascii)) (x : ascii) : bool :=
  existsb (in_range x) ranges.

(** A position in the text: whether it is the beginning, and what is
    left. *)
Definition pos : Type := bool * list ascii.

(** All the positions at which a match of [r] that starts at [st] can
    end. *)
Fixpoint run (r : regex) (st : pos) : list pos :=
  match r with
  | BeginText => if fst st then [st] else []
  | EndText => match snd st with [] => [st] | _ :: _ => [] end
  | Lit c =>
      match snd st with
      | x :: rest => if Ascii.eqb x c then [(false, rest)] else []
      | [] => []
      end
  | Class ranges =>
      match snd st with
      | x :: rest => if in_class ranges x then [(false, rest)] else []
      | [] => []
      end
  | Cat r1 r2 => flat_map (run r2) (run r1 st)
  | Repeat n r1 =>
      (fix rep (n : nat) (st : pos) : list pos :=
         match n with
         | O => [st]
         | S n' => flat_map (rep n') (run r1 st)
         end) n st
  end.

Definition matches_at (r : regex) (text : list ascii) (i : nat) : bool :=
  match run r (Nat.eqb i 0, skipn i text) with
  | [] => false
  | _ :: _ => true
  end.

(** [re.MatchString(s)]: is there a match starting anywhere in [s]. *)
Definition MatchString (r : regex) (s : string) : bool :=
  let text := list_ascii_of_string s in
  existsb (matches_at r text) (seq 0 (S (length text))).

End Regexp.

(** ** chains/eth/address.go *)

Module EthAddress.

Import Regexp.

(** [regexp.MustCompile("^0x[0-9a-fA-F]{40}$")]. *)
Definition addrRegex : regex :=
  Cat BeginText
 (Cat (Lit "0")
 (Cat (Lit "x")
 (Cat (Repeat 40 (Class [("0", "9"); ("a", "f"); ("A", "F")]%char))
      EndText))).

Definition IsValidAddress (address : string) : bool :=
  MatchString addrRegex address.

(** Go errors: [errors.New(msg)] and [fmt.Errorf(prefix + "%w", err)]. *)
Inductive error : Type :=
| ErrorNew (msg : string)
| ErrorWrap (prefix : string) (err : error).

Section Client.

(** [common.Address] and [common.HexToAddress], from go-ethereum. *)
Variable Address : Type.
Variable HexToAddress : string -> Address.

(** The node behind the [ethclient.Client]: what it answers to
    [CodeAt(ctx, addr, nil)], given the requests it has seen so far. *)
Variable CodeAt : list Address -> Address -> list ascii + error.

(** The requests sent to the node so far. *)
Definition network : Type := list Address.

(** [client.CodeAt(ctx, addr, nil)]: one request. *)
Definition call_CodeAt (addr : Address) (w : network) : (list ascii + error) * network :=
  (CodeAt w addr, w ++ [addr]).

(** [IsSmartContractCtx(ctx, address, client)]; the [error] of the result
    is [None] for [nil]. *)
Definition IsSmartContractCtx (address : string) (w : network)
  : (bool * option error) * network :=
  if negb (IsValidAddress address)
  then ((false, Some (ErrorNew "invalid address")), w)
  else
    let addr := HexToAddress address in
    match call_CodeAt addr w with
    | (inr err, w') => ((false, Some (ErrorWrap "failed to get bytecode: " err)), w')
    | (inl byteCode, w') => ((0 <? length byteCode)%nat, None, w')
    end.

(** [IsSmartContract(address, client)]. *)
Definition IsSmartContract (address : string) (w : network) :=
  IsSmartContractCtx address w.

End Client.

End EthAddress.

(** * Vocabulary of the statements *)

(** ** Well-formed amounts *)

(** [v] points to the struct [cv]. *)
Definition points_to (h : heap) (v : ptr) (cv : CoinValue) : Prop :=
  exists l : nat, v = Some l /\ coins h !! l = Some cv.

(** [p] points to a [big.Int] holding [z]. *)
Definition int_at (h : heap) (p : ptr) (z : Z) : Prop :=
  exists k : nat, p = Some k /\ ints h !! k = Some z.

(** [v] is an amount of [u] smallest units of the currency [D]. *)
Definition amount (h : heap) (v : ptr) (D : ValueDefinition) (u : Z) : Prop :=
  exists p, points_to h v (mkCoin D p) /\ int_at h p u.

(** Everything allocated in [h] is still there, unchanged, in [h']. *)
Definition extends (h h' : heap) : Prop :=
  ints h `prefix_of` ints h' /\ coins h `prefix_of` coins h'.

(** The store after a successful operation: one more number and one more
    struct pointing to it. *)
Definition with_result (h : heap) (D : ValueDefinition) (z : Z) : heap :=
  mkHeap (ints h ++ [z]) (coins h ++ [mkCoin D (Some (length (ints h)))]).

Definition result_ptr (h : heap) : ptr := Some (length (coins h)).

(** The store after a construction from a decimal: the zero of
    [NewCoinValue(nil)], the number computed, and the struct pointing to
    the latter. *)
Definition with_decimal (h : heap) (D : ValueDefinition) (z : Z) : heap :=
  mkHeap ((ints h ++ [0]) ++ [z])
         (coins h ++ [mkCoin D (Some (S (length (ints h))))]).

(** [r] and [h'] are the result of an operation on the receiver [v] in
    [h]: one number and one struct were added, the struct is the result
    and carries the definition of [v]. *)
Definition fresh_result (h : heap) (v : ptr) (r : ptr) (h' : heap) : Prop :=
  exists cv z, points_to h v cv /\ r = result_ptr h /\ h' = with_result h (def cv) z.

(** What the units of a quotient satisfy: the remainder is never
    negative; for a non-negative dividend this is truncation. *)
Definition euclid_units (h : heap) (r : ptr) (a b : Z) : Prop :=
  exists q, Types.units_of h r = Some q
            /\ 0 <= a - b * q < Z.abs b
            /\ (0 <= a -> q = Z.quot a b).

(** What one of the four [big.Int] operations leaves behind when its
    receiver is the zero just allocated: that cell, with some number. *)
Definition writes_new_only (op : ptr -> ptr -> ptr -> M ptr) : Prop :=
  forall h c x y,
  exists z, snd (op (Some (length (ints h))) x y (mkHeap (ints h ++ [0]) c))
            = mkHeap (ints h ++ [z]) c.

(** ** Decimals as numbers, and rounding *)

Module Rounding.

Import Decimal.

(** The rational number a decimal stands for. *)
Definition to_Q (d : Decimal) : Q := inject_Z (dvalue d) * 10 ^ dexp d.

(** Truncation toward zero. *)
Definition Qtrunc (q : Q) : Z := Z.quot (Qnum q) (Zpos (Qden q)).

(** Rounding to the nearest integer, halves away from zero. *)
Definition Qround_half_away (q : Q) : Z :=
  Z.sgn (Qnum q) * Qfloor (Qabs q + (1 # 2)).

(** [q] rounded to [places] decimal places, as the decimal with that many
    places. *)
Definition Qround_places (q : Q) (places : Z) : Decimal :=
  mkDec (Qround_half_away (q * 10 ^ places)) (- places).

End Rounding.

(** ** The address format *)

(** The hexadecimal digits, of either case. *)
Definition is_hex_digit (c : ascii) : bool :=
  existsb (Ascii.eqb c) (list_ascii_of_string "0123456789abcdefABCDEF").

(** The address format in words: [0x] followed by 40 hexadecimal
    digits. *)
Definition address_format (s : string) : Prop :=
  exists ds : list ascii,
    s = String "0" (String "x" (string_of_list_ascii ds))
    /\ length ds = 40%nat
    /\ forallb is_hex_digit ds = true.

Definition hex_ranges : list (ascii * ascii) :=
  [("0", "9"); ("a", "f"); ("A", "F")]%char.

(** The pattern, decided directly on the characters. *)
Definition address_shape (text : list ascii) : bool :=
  match text with
  | c0 :: c1 :: ds =>
      Ascii.eqb c0 "0" && Ascii.eqb c1 "x"
      && Nat.eqb (length ds) 40 && forallb is_hex_digit ds
  | _ => false
  end.

(** ** Rounding by quotient and remainder *)

(** The value [DivRound] computes for an integer over a power of ten. *)
Definition div_pow10_round (u exp U : Z) : Z :=
  if 0 <=? U - exp then u * 10 ^ (U - exp)
  else
    let B := 10 ^ (exp - U) in
    if 2 * Z.abs (Z.rem u B) <? B then Z.quot u B
    else if u <? 0 then Z.quot u B - 1 else Z.quot u B + 1.

(** ** A store to try things on

    Amounts 0..4: ETH -7, ETH 2, ETH 0, BTC 2 (sharing its number with
    amount 1) and ETH 7. *)
Definition btcDefinition : ValueDefinition := mkDef "BTC" 8.

Definition sample : heap :=
  mkHeap [-7; 2; 0; 7]
         [mkCoin Eth.ethDefinition (Some 0%nat);
          mkCoin Eth.ethDefinition (Some 1%nat);
          mkCoin Eth.ethDefinition (Some 2%nat);
          mkCoin btcDefinition (Some 1%nat);
          mkCoin Eth.ethDefinition (Some 3%nat)].

(** Addresses: valid, valid in mixed case, and one digit short. *)
Definition zero_address : string := "0x0000000000000000000000000000000000000000".
Definition mixed_address : string := "0x00aAbBcCdDeEfF0123456789abcdefABCDEF0099".
Definition short_address : string := "0x000000000000000000000000000000000000000".

(** A node that knows one contract. *)
Definition sample_node (w : list string) (addr : string)
  : list ascii + EthAddress.error :=
  if String.eqb addr mixed_address
  then inl ["`"; "`"]%char
  else inl [].

(** Two definitions of one name: 18 and 6 decimals. *)
Definition two_exponents : heap :=
  mkHeap [5; 3]
         [mkCoin (mkDef "ETH" 18) (Some 0%nat); mkCoin (mkDef "ETH" 6) (Some 1%nat)].

(** Seven and minus seven units of Ether. *)
Definition plus_minus : heap :=
  mkHeap [7; -7]
         [mkCoin Eth.ethDefinition (Some 0%nat); mkCoin Eth.ethDefinition (Some 1%nat)].

(** A node that cannot be reached. *)
Definition unreachable_node (w : list string) (addr : string)
  : list ascii + EthAddress.error :=
  inr (EthAddress.ErrorNew "connection refused").

(** A store with a single amount: 5 units of Ether, and a zero that
    belongs to no amount. *)
Definition lone_amount : heap :=
  mkHeap [5; 0] [mkCoin Eth.ethDefinition (Some 0%nat)].

(** * Proofs *)

(** ** Stepping through the store *)

Lemma lookup_snoc_old {A} (l : list A) (x : A) (i : nat) (y : A) :
  l !! i = Some y -> (l ++ [x]) !! i = Some y.
Proof.
  intros H. rewrite lookup_app_l; [exact H|]. eapply lookup_lt_Some; eauto.
Qed.

Lemma lookup_snoc_new {A} (l : list A) (x : A) :
  (l ++ [x]) !! length l = Some x.
Proof.
  rewrite lookup_app_r by lia. now rewrite Nat.sub_diag.
Qed.

Lemma insert_snoc {A} (l : list A) (x y : A) :
  <[length l := y]> (l ++ [x]) = l ++ [y].
Proof.
  rewrite insert_app_r_alt by lia. now rewrite Nat.sub_diag.
Qed.

Lemma length_snoc_lt {A} (l : list A) (x : A) :
  (length l < length (l ++ [x]))%nat.
Proof. rewrite length_app. simpl. lia. Qed.

Lemma prefix_snoc {A} (l : list A) (x : A) : l `prefix_of` l ++ [x].
Proof. now exists [x]. Qed.

Lemma extends_amount h h' v D u : extends h h' -> amount h v D u -> amount h' v D u.
Proof.
  intros [[ki Hi] [kc Hc]] (p & (l & -> & Hl) & (k & -> & Hk)).
  exists (Some k). split.
  - exists l. split; [reflexivity|]. rewrite Hc. rewrite lookup_app_l; [exact Hl|].
    eapply lookup_lt_Some; eauto.
  - exists k. split; [reflexivity|]. rewrite Hi. rewrite lookup_app_l; [exact Hk|].
    eapply lookup_lt_Some; eauto.
Qed.

Lemma load_points_to h v cv : points_to h v cv -> Types.load v h = (Ret cv, h).
Proof. intros (l & -> & Hl). unfold Types.load. now rewrite Hl. Qed.

Lemma Same_points_to h v o cv co :
  points_to h v cv -> points_to h o co ->
  Types.Same v o h = (Ret (String.eqb (CoinName (def cv)) (CoinName (def co))), h).
Proof.
  intros Hv Ho. unfold Types.Same, Types.CoinName, bind, ret.
  now rewrite (load_points_to _ _ _ Hv), (load_points_to _ _ _ Ho).
Qed.

Lemma units_of_amount h v D u : amount h v D u -> Types.units_of h v = Some u.
Proof.
  intros (p & Hv & (k & -> & Hk)).
  unfold Types.units_of, Types.Units, bind, ret.
  rewrite (load_points_to _ _ _ Hv). simpl. unfold Big.load. now rewrite Hk.
Qed.

Lemma def_of_amount h v D u : amount h v D u -> Types.def_of h v = Some D.
Proof.
  intros (p & Hv & _). unfold Types.def_of. now rewrite (load_points_to _ _ _ Hv).
Qed.

Lemma with_result_extends h D z : extends h (with_result h D z).
Proof. split; apply prefix_snoc. Qed.

Lemma with_result_amount h D z : amount (with_result h D z) (result_ptr h) D z.
Proof.
  exists (Some (length (ints h))). split.
  - exists (length (coins h)). split; [reflexivity|]. apply lookup_snoc_new.
  - exists (length (ints h)). split; [reflexivity|]. apply lookup_snoc_new.
Qed.

Lemma load_snoc h x p z :
  int_at h p z ->
  Big.load p (mkHeap (ints h ++ [x]) (coins h))
  = (Ret z, mkHeap (ints h ++ [x]) (coins h)).
Proof.
  intros (k & -> & Hk). unfold Big.load. simpl.
  now rewrite (lookup_snoc_old _ _ _ _ Hk).
Qed.

Lemma store_new h x z c :
  Big.store (Some (length (ints h))) z (mkHeap (ints h ++ [x]) c)
  = (Ret tt, mkHeap (ints h ++ [z]) c).
Proof.
  unfold Big.store. simpl.
  destruct (decide _) as [_|N]; [|destruct N; apply length_snoc_lt].
  now rewrite insert_snoc.
Qed.

Lemma load_points_to_ints h i v cv :
  points_to h v cv ->
  Types.load v (mkHeap i (coins h)) = (Ret cv, mkHeap i (coins h)).
Proof. intros (l & -> & Hl). unfold Types.load. simpl. now rewrite Hl. Qed.

#[local] Arguments Big.store : simpl never.
#[local] Arguments Big.load : simpl never.
#[local] Arguments Types.load : simpl never.

(** Running the body of an operation once the operands are known. *)
Ltac run_op Hv Ho :=
  repeat first
    [ rewrite (load_points_to _ _ _ Hv)
    | rewrite (load_points_to _ _ _ Ho)
    | rewrite (load_points_to_ints _ _ _ _ Hv)
    | rewrite (load_points_to_ints _ _ _ _ Ho)
    | match goal with
      | I : int_at _ _ _ |- _ => rewrite (load_snoc _ _ _ _ I)
      end
    | rewrite store_new
    | progress unfold bind, ret, throw, Types.Units, Big.new_Int, Big.alloc,
         Big.Add, Big.Sub, Big.Mul, Big.Div, Types.new_CoinValue
    | progress simpl ].

Section Arithmetic.

Variables (h : heap) (v o : ptr) (D D' : ValueDefinition) (a b : Z).
Hypothesis Hv : amount h v D a.
Hypothesis Ho : amount h o D' b.

Lemma Same_amount :
  Types.Same v o h = (Ret (String.eqb (CoinName D) (CoinName D')), h).
Proof.
  destruct Hv as (p & Pv & _), Ho as (q & Po & _).
  now rewrite (Same_points_to _ _ _ _ _ Pv Po).
Qed.

Hypothesis Hsame : CoinName D = CoinName D'.

Lemma Add_amount :
  Types.Add v o h = (Ret (result_ptr h), with_result h D (a + b)).
Proof.
  unfold Types.Add, bind at 1. rewrite Same_amount, Hsame, String.eqb_refl. simpl.
  destruct Hv as (p & Pv & Iv), Ho as (q & Po & Io).
  run_op Pv Po. reflexivity.
Qed.

Lemma Sub_amount :
  Types.Sub v o h = (Ret (result_ptr h), with_result h D (a - b)).
Proof.
  unfold Types.Sub, bind at 1. rewrite Same_amount, Hsame, String.eqb_refl. simpl.
  destruct Hv as (p & Pv & Iv), Ho as (q & Po & Io).
  run_op Pv Po. reflexivity.
Qed.

Lemma Mul_amount :
  Types.Mul v o h = (Ret (result_ptr h), with_result h D (a * b)).
Proof.
  unfold Types.Mul, bind at 1. rewrite Same_amount, Hsame, String.eqb_refl. simpl.
  destruct Hv as (p & Pv & Iv), Ho as (q & Po & Io).
  run_op Pv Po. reflexivity.
Qed.

Lemma Div_amount :
  b <> 0 ->
  Types.Div v o h = (Ret (result_ptr h), with_result h D (Big.div a b)).
Proof.
  intros Hb.
  unfold Types.Div, bind at 1. rewrite Same_amount, Hsame, String.eqb_refl. simpl.
  destruct Hv as (p & Pv & Iv), Ho as (q & Po & Io).
  run_op Pv Po. apply Z.eqb_neq in Hb. rewrite Hb.
  run_op Pv Po. reflexivity.
Qed.

Lemma Div_amount_zero :
  b = 0 ->
  Types.Div v o h
  = (Panic (PanicString "division by zero"), mkHeap (ints h ++ [0]) (coins h)).
Proof.
  intros E.
  unfold Types.Div, bind at 1. rewrite Same_amount, Hsame, String.eqb_refl. simpl.
  destruct Hv as (p & Pv & Iv), Ho as (q & Po & Io). rewrite E in Io.
  run_op Pv Po. reflexivity.
Qed.

End Arithmetic.

Section Scalar.

Variables (h : heap) (v scalar : ptr) (D : ValueDefinition) (a k : Z).
Hypothesis Hv : amount h v D a.
Hypothesis Hk : int_at h scalar k.

Lemma MulScalar_amount :
  Types.MulScalar v scalar h = (Ret (result_ptr h), with_result h D (a * k)).
Proof.
  unfold Types.MulScalar. destruct Hv as (p & Pv & Iv).
  run_op Pv Pv. reflexivity.
Qed.

Lemma DivScalar_amount :
  k <> 0 ->
  Types.DivScalar v scalar h = (Ret (result_ptr h), with_result h D (Big.div a k)).
Proof.
  intros Hb. unfold Types.DivScalar. destruct Hv as (p & Pv & Iv).
  run_op Pv Pv. apply Z.eqb_neq in Hb. rewrite Hb.
  run_op Pv Pv. reflexivity.
Qed.

Lemma DivScalar_amount_zero :
  k = 0 ->
  Types.DivScalar v scalar h
  = (Panic (PanicString "division by zero"), mkHeap (ints h ++ [0]) (coins h)).
Proof.
  intros E. pose proof Hk as Ik. rewrite E in Ik. clear Hk.
  unfold Types.DivScalar. destruct Hv as (p & Pv & Iv).
  run_op Pv Pv. reflexivity.
Qed.

End Scalar.

(** ** Euclidean division *)

Lemma div_euclid (a b : Z) : b <> 0 -> 0 <= a - b * Big.div a b < Z.abs b.
Proof.
  intros Hb. unfold Big.div, Big.quo, Big.rem.
  pose proof (Z.quot_rem' a b) as E.
  pose proof (Z.rem_bound_abs a b Hb) as B.
  destruct (Z.rem a b <? 0) eqn:Hr; [apply Z.ltb_lt in Hr | apply Z.ltb_ge in Hr].
  - destruct (b <? 0) eqn:Hn; [apply Z.ltb_lt in Hn | apply Z.ltb_ge in Hn]; lia.
  - lia.
Qed.

Lemma div_unique (a b q : Z) : 0 <= a - b * q < Z.abs b -> q = Big.div a b.
Proof.
  intros Hq. assert (Hb : b <> 0) by lia.
  pose proof (div_euclid a b Hb). nia.
Qed.

Lemma div_nonneg_quot (a b : Z) : 0 <= a -> b <> 0 -> Big.div a b = Z.quot a b.
Proof.
  intros Ha Hb. unfold Big.div, Big.quo, Big.rem.
  pose proof (Z.rem_nonneg a b Hb Ha) as Hr.
  apply Z.ltb_ge in Hr. now rewrite Hr.
Qed.

(** ** Reading a successful step backwards *)

Ltac inv_run H :=
  repeat match type of H with
         | context [match ?x with _ => _ end] => destruct x eqn:?; try discriminate H
         end.

Lemma load_inv h v cv h' :
  Types.load v h = (Ret cv, h') -> points_to h v cv /\ h' = h.
Proof.
  unfold Types.load. intros H. inv_run H. inversion H; subst.
  split; [|reflexivity]. eexists; split; [reflexivity|assumption].
Qed.

Lemma Big_load_inv h p z h' :
  Big.load p h = (Ret z, h') -> int_at h p z /\ h' = h.
Proof.
  unfold Big.load. intros H. inv_run H. inversion H; subst.
  split; [|reflexivity]. eexists; split; [reflexivity|assumption].
Qed.

(** ** What a successful operation does to the store *)

Lemma Big_load_snoc_inv h x c p z h' :
  Big.load p (mkHeap (ints h ++ [x]) c) = (Ret z, h') -> h' = mkHeap (ints h ++ [x]) c.
Proof. intros H. now apply Big_load_inv in H as [_ ->]. Qed.

Ltac inv_big H :=
  unfold bind, ret, throw in H;
  repeat match type of H with
         | context [Big.load ?p ?hh] =>
             let E := fresh "E" in
             destruct (Big.load p hh) as [[?|?] ?] eqn:E; [|discriminate H];
             apply Big_load_snoc_inv in E; subst
         end;
  try match type of H with
      | context [if ?c then _ else _] => destruct c; [discriminate H|]
      end;
  rewrite store_new in H; inversion H; subst; eauto.

Lemma Big_Add_new_inv h c x y s h' :
  Big.Add (Some (length (ints h))) x y (mkHeap (ints h ++ [0]) c) = (Ret s, h') ->
  s = Some (length (ints h)) /\ exists z, h' = mkHeap (ints h ++ [z]) c.
Proof. unfold Big.Add. intros H. inv_big H. Qed.

Lemma Big_Sub_new_inv h c x y s h' :
  Big.Sub (Some (length (ints h))) x y (mkHeap (ints h ++ [0]) c) = (Ret s, h') ->
  s = Some (length (ints h)) /\ exists z, h' = mkHeap (ints h ++ [z]) c.
Proof. unfold Big.Sub. intros H. inv_big H. Qed.

Lemma Big_Mul_new_inv h c x y s h' :
  Big.Mul (Some (length (ints h))) x y (mkHeap (ints h ++ [0]) c) = (Ret s, h') ->
  s = Some (length (ints h)) /\ exists z, h' = mkHeap (ints h ++ [z]) c.
Proof. unfold Big.Mul. intros H. inv_big H. Qed.

Lemma Big_Div_new_inv h c x y s h' :
  Big.Div (Some (length (ints h))) x y (mkHeap (ints h ++ [0]) c) = (Ret s, h') ->
  s = Some (length (ints h)) /\ exists z, h' = mkHeap (ints h ++ [z]) c.
Proof. unfold Big.Div. intros H. inv_big H. Qed.

Lemma Same_inv h v o same h' :
  Types.Same v o h = (Ret same, h') -> h' = h.
Proof.
  unfold Types.Same, Types.CoinName, bind, ret. intros H.
  destruct (Types.load v h) as [[cv|] h1] eqn:E1; [|discriminate].
  apply load_inv in E1 as [_ ->].
  destruct (Types.load o h) as [[co|] h2] eqn:E2; [|discriminate].
  apply load_inv in E2 as [_ ->]. now inversion H.
Qed.

(** The shared tail of the four binary operations and of the two scalar
    ones: load the receiver, allocate, compute, wrap. *)
Lemma tail_fresh_result h v (arg : CoinValue -> M ptr)
      (op : ptr -> ptr -> ptr -> M ptr) r h' :
  (forall h0 c x y s h1,
      op (Some (length (ints h0))) x y (mkHeap (ints h0 ++ [0]) c) = (Ret s, h1) ->
      s = Some (length (ints h0)) /\ exists z, h1 = mkHeap (ints h0 ++ [z]) c) ->
  (forall cv hh u h1, arg cv hh = (Ret u, h1) -> h1 = hh) ->
  (do cv <- Types.load v ;
   do z <- Big.new_Int ;
   do u <- arg cv ;
   do s <- op z (value cv) u ;
   Types.new_CoinValue (mkCoin (def cv) s)) h = (Ret r, h') ->
  fresh_result h v r h'.
Proof.
  intros Hop Harg H. unfold bind at 1 in H.
  destruct (Types.load v h) as [[cv|] h1] eqn:E1; [|discriminate].
  apply load_inv in E1 as [Pv ->].
  unfold bind at 1 in H. unfold Big.new_Int, Big.alloc in H.
  unfold bind at 1 in H.
  destruct (arg cv _) as [[u|] h2] eqn:E2; [|discriminate].
  apply Harg in E2 as ->.
  unfold bind at 1 in H.
  destruct (op _ _ _ _) as [[s|] h3] eqn:E3; [|discriminate].
  apply Hop in E3 as [-> [z ->]].
  unfold Types.new_CoinValue in H. simpl in H. inversion H; subst.
  exists cv, z. repeat split. assumption.
Qed.

Lemma Units_inv o hh u h1 : Types.Units o hh = (Ret u, h1) -> h1 = hh.
Proof.
  unfold Types.Units, bind, ret. intros H.
  destruct (Types.load o hh) as [[co|] h2] eqn:E; [|discriminate].
  apply load_inv in E as [_ ->]. now inversion H.
Qed.

Ltac binop_fresh inv :=
  intros H; unfold bind at 1 in H;
  match type of H with
  | context [Types.Same ?v ?o ?h] =>
      let E := fresh "E" in
      destruct (Types.Same v o h) as [[[|]|] ?] eqn:E; try discriminate H;
      apply Same_inv in E; subst; simpl in H
  end;
  eapply (tail_fresh_result _ _ (fun _ => Types.Units _) _ _ _ inv
            (fun _ => Units_inv _)); exact H.

Lemma Add_fresh h v o r h' :
  Types.Add v o h = (Ret r, h') -> fresh_result h v r h'.
Proof. unfold Types.Add. binop_fresh Big_Add_new_inv. Qed.

Lemma Sub_fresh h v o r h' :
  Types.Sub v o h = (Ret r, h') -> fresh_result h v r h'.
Proof. unfold Types.Sub. binop_fresh Big_Sub_new_inv. Qed.

Lemma Mul_fresh h v o r h' :
  Types.Mul v o h = (Ret r, h') -> fresh_result h v r h'.
Proof. unfold Types.Mul. binop_fresh Big_Mul_new_inv. Qed.

Lemma Div_fresh h v o r h' :
  Types.Div v o h = (Ret r, h') -> fresh_result h v r h'.
Proof. unfold Types.Div. binop_fresh Big_Div_new_inv. Qed.

Lemma MulScalar_fresh h v k r h' :
  Types.MulScalar v k h = (Ret r, h') -> fresh_result h v r h'.
Proof.
  unfold Types.MulScalar. intros H.
  eapply (tail_fresh_result _ _ (fun _ => ret k) _ _ _ Big_Mul_new_inv).
  - intros cv hh u h1 E. now inversion E.
  - exact H.
Qed.

Lemma DivScalar_fresh h v k r h' :
  Types.DivScalar v k h = (Ret r, h') -> fresh_result h v r h'.
Proof.
  unfold Types.DivScalar. intros H.
  eapply (tail_fresh_result _ _ (fun _ => ret k) _ _ _ Big_Div_new_inv).
  - intros cv hh u h1 E. now inversion E.
  - exact H.
Qed.




Lemma sample_amount (l k : nat) D u :
  coins sample !! l = Some (mkCoin D (Some k)) -> ints sample !! k = Some u ->
  amount sample (Some l) D u.
Proof.
  intros Hl Hk. exists (Some k). split.
  - exists l. now split.
  - exists k. now split.
Qed.

Lemma lone_amount_holds : amount lone_amount (Some 0%nat) Eth.ethDefinition 5.
Proof.
  exists (Some 0%nat). split; [exists 0%nat|exists 0%nat]; now split.
Qed.

(** ** Division *)

Lemma euclid_units_result h D a b :
  b <> 0 -> euclid_units (with_result h D (Big.div a b)) (result_ptr h) a b.
Proof.
  intros Hb. exists (Big.div a b). split; [|split].
  - exact (units_of_amount _ _ _ _ (with_result_amount h D _)).
  - now apply div_euclid.
  - intros Ha. now apply div_nonneg_quot.
Qed.

(** C1, as the spec states it, fails: dividing -7 units by 2 units gives
    -4 units, where truncation toward zero gives -3. *)
Lemma Div_truncation_counterexample :
  amount sample (Some 0%nat) Eth.ethDefinition (-7) /\
  amount sample (Some 1%nat) Eth.ethDefinition 2 /\
  exists r h', Types.Div (Some 0%nat) (Some 1%nat) sample = (Ret r, h')
               /\ Types.units_of h' r = Some (-4)
               /\ Types.units_of h' r <> Some (Z.quot (-7) 2).
Proof.
  split; [now apply (sample_amount 0 0)|].
  split; [now apply (sample_amount 1 1)|].
  eexists _, _. split; [reflexivity|]. split; [reflexivity|discriminate].
Qed.

(** C1 (amended): for same-currency amounts [a] and [b] with [b.units()]
    nonzero, [a.Div(b)] returns an amount whose units [q] are the Euclidean
    quotient of the units, [0 <= a - b*q < |b|]; this is the quotient
    truncated toward zero whenever [a.units()] is not negative. The same
    holds for [a.DivScalar(k)] with any nonzero scalar [k], whatever else
    the store holds. *)
Theorem Div_is_euclidean h v D a :
  amount h v D a ->
  (forall o D' b,
      amount h o D' b -> CoinName D = CoinName D' -> b <> 0 ->
      exists r h', Types.Div v o h = (Ret r, h') /\ euclid_units h' r a b) /\
  (forall s k,
      int_at h s k -> k <> 0 ->
      exists r h', Types.DivScalar v s h = (Ret r, h') /\ euclid_units h' r a k).
Proof.
  intros Hv. split.
  - intros o D' b Ho Hs Hb.
    eexists _, _. split; [now apply (Div_amount _ _ _ _ _ _ _ Hv Ho)|].
    now apply euclid_units_result.
  - intros s k Hk Hk0.
    eexists _, _. split; [now apply (DivScalar_amount _ _ _ _ _ _ Hv Hk)|].
    now apply euclid_units_result.
Qed.

Lemma Div_is_euclidean_witness :
  (exists r h', Types.Div (Some 4%nat) (Some 1%nat) sample = (Ret r, h')
                /\ euclid_units h' r 7 2) /\
  (exists r h', Types.DivScalar (Some 0%nat) (Some 0%nat) lone_amount = (Ret r, h')
                /\ euclid_units h' r 5 5).
Proof.
  split.
  - apply (proj1 (Div_is_euclidean sample (Some 4%nat) Eth.ethDefinition 7
                    ltac:(now apply (sample_amount 4 3)))
             (Some 1%nat) Eth.ethDefinition 2).
    + now apply (sample_amount 1 1).
    + reflexivity.
    + lia.
  - apply (proj2 (Div_is_euclidean lone_amount (Some 0%nat) Eth.ethDefinition 5
                    lone_amount_holds)
             (Some 0%nat) 5).
    + exists 0%nat. now split.
    + lia.
Defined.

Example Div_7_2 : Big.div 7 2 = 3.
Proof. reflexivity. Qed.

Example Div_neg7_2 : Big.div (-7) 2 = -4.
Proof. reflexivity. Qed.

(** ** Currency mismatch *)

(** C2, as the spec states it, fails: adding a BTC amount to an ETH amount
    does not hand an error to the caller; the call panics with a plain
    string and never returns. The same holds for the other three. *)
Lemma mismatch_no_error_counterexample :
  Types.Add (Some 0%nat) (Some 3%nat) sample
  = (Panic (PanicString "cannot add values of different coins"), sample)
  /\ ~ returns (fst (Types.Add (Some 0%nat) (Some 3%nat) sample))
  /\ ~ returns (fst (Types.Sub (Some 0%nat) (Some 3%nat) sample))
  /\ ~ returns (fst (Types.Mul (Some 0%nat) (Some 3%nat) sample))
  /\ ~ returns (fst (Types.Div (Some 0%nat) (Some 3%nat) sample)).
Proof. repeat split; intros []. Qed.

(** C2 (amended): for amounts whose coin names differ, each of [Add],
    [Sub], [Mul] and [Div] panics with its "cannot ... values of different
    coins" message, and nothing is computed: the store is left as it
    was. *)
Theorem mismatch_panics h v o cv co :
  points_to h v cv -> points_to h o co ->
  CoinName (def cv) <> CoinName (def co) ->
  Types.Add v o h = (Panic (PanicString "cannot add values of different coins"), h) /\
  Types.Sub v o h = (Panic (PanicString "cannot subtract values of different coins"), h) /\
  Types.Mul v o h = (Panic (PanicString "cannot multiply values of different coins"), h) /\
  Types.Div v o h = (Panic (PanicString "cannot divide values of different coins"), h).
Proof.
  intros Pv Po Hne. apply String.eqb_neq in Hne.
  unfold Types.Add, Types.Sub, Types.Mul, Types.Div.
  repeat split; unfold bind at 1;
    rewrite (Same_points_to _ _ _ _ _ Pv Po), Hne; reflexivity.
Qed.

Lemma mismatch_panics_witness :
  Types.Add (Some 0%nat) (Some 3%nat) sample
  = (Panic (PanicString "cannot add values of different coins"), sample) /\
  Types.Sub (Some 0%nat) (Some 3%nat) sample
  = (Panic (PanicString "cannot subtract values of different coins"), sample) /\
  Types.Mul (Some 0%nat) (Some 3%nat) sample
  = (Panic (PanicString "cannot multiply values of different coins"), sample) /\
  Types.Div (Some 0%nat) (Some 3%nat) sample
  = (Panic (PanicString "cannot divide values of different coins"), sample).
Proof.
  apply (mismatch_panics sample (Some 0%nat) (Some 3%nat)
           (mkCoin Eth.ethDefinition (Some 0%nat)) (mkCoin btcDefinition (Some 1%nat))).
  - exists 0%nat. now split.
  - exists 3%nat. now split.
  - simpl. discriminate.
Defined.

(** ** Division by zero *)

(** C3: [Div] by a same-currency amount whose units are zero, and
    [DivScalar] by a zero scalar, panic with "division by zero"; no amount
    is returned. *)
Theorem division_by_zero_panics h v D a :
  amount h v D a ->
  (forall o D',
      amount h o D' 0 -> CoinName D = CoinName D' ->
      fst (Types.Div v o h) = Panic (PanicString "division by zero")) /\
  (forall s,
      int_at h s 0 ->
      fst (Types.DivScalar v s h) = Panic (PanicString "division by zero")).
Proof.
  intros Hv. split.
  - intros o D' Ho Hs.
    now rewrite (Div_amount_zero _ _ _ _ _ _ _ Hv Ho Hs eq_refl).
  - intros s Hk.
    now rewrite (DivScalar_amount_zero _ _ _ _ _ _ Hv Hk eq_refl).
Qed.

Lemma division_by_zero_panics_witness :
  fst (Types.Div (Some 0%nat) (Some 2%nat) sample)
  = Panic (PanicString "division by zero") /\
  fst (Types.DivScalar (Some 0%nat) (Some 1%nat) lone_amount)
  = Panic (PanicString "division by zero").
Proof.
  split.
  - apply (proj1 (division_by_zero_panics sample (Some 0%nat) Eth.ethDefinition (-7)
                    ltac:(now apply (sample_amount 0 0)))
             (Some 2%nat) Eth.ethDefinition).
    + now apply (sample_amount 2 2).
    + reflexivity.
  - apply (proj2 (division_by_zero_panics lone_amount (Some 0%nat) Eth.ethDefinition 5
                    lone_amount_holds)
             (Some 1%nat)).
    exists 1%nat. now split.
Defined.

(** ** Raw units *)

(** C6: [NewCoinValue(u).Units()] is [u] itself, the very pointer that
    was passed, so the number read through it is the one given; and
    [NewCoinValue(nil)], in any store, is an amount of exactly zero
    units. *)
Theorem NewCoinValue_Units D h :
  (forall p u,
      int_at h p u ->
      exists v h', Types.NewCoinValue D p h = (Ret v, h')
                   /\ Types.Units v h' = (Ret p, h')
                   /\ Types.units_of h' v = Some u
                   /\ ints h' = ints h) /\
  (exists v h', Types.NewCoinValue D None h = (Ret v, h')
                /\ Types.units_of h' v = Some 0).
Proof.
  split.
  - intros p u (k & -> & Hk).
    eexists _, _. split; [reflexivity|].
    assert (A : amount (mkHeap (ints h) (coins h ++ [mkCoin D (Some k)]))
                       (Some (length (coins h))) D u).
    { exists (Some k). split.
      - exists (length (coins h)). split; [reflexivity|]. apply lookup_snoc_new.
      - exists k. now split. }
    split; [|split; [exact (units_of_amount _ _ _ _ A)|reflexivity]].
    unfold Types.Units, bind, ret, Types.load. simpl.
    now rewrite lookup_snoc_new.
  - eexists _, _. split; [reflexivity|].
    exact (units_of_amount _ _ _ _ (with_result_amount h D 0)).
Qed.

Lemma NewCoinValue_Units_witness :
  (exists v h', Types.NewCoinValue Eth.ethDefinition (Some 3%nat) sample = (Ret v, h')
                /\ Types.Units v h' = (Ret (Some 3%nat), h')
                /\ Types.units_of h' v = Some 7
                /\ ints h' = ints sample) /\
  (exists v h', Types.NewCoinValue Eth.ethDefinition None empty_heap = (Ret v, h')
                /\ Types.units_of h' v = Some 0).
Proof.
  split.
  - apply (proj1 (NewCoinValue_Units Eth.ethDefinition sample) (Some 3%nat) 7).
    exists 3%nat. now split.
  - exact (proj2 (NewCoinValue_Units Eth.ethDefinition empty_heap)).
Defined.

(** ** Arithmetic leaves its operands alone *)



(** ** The address pattern *)

Section AddressFormat.

Import Regexp EthAddress.

Lemma in_class_hex (c : ascii) : in_class hex_ranges c = is_hex_digit c.
Proof.
  destruct c as [[|] [|] [|] [|] [|] [|] [|] [|]]; reflexivity.
Qed.

Lemma run_Repeat_Class (rs : list (ascii * ascii)) (n : nat) :
  forall (b : bool) (l : list ascii),
    run (Repeat n (Class rs)) (b, l)
    = if (n <=? length l)%nat && forallb (in_class rs) (firstn n l)
      then [(b && Nat.eqb n 0, skipn n l)]
      else [].
Proof.
  induction n as [|n IH]; intros b l.
  - simpl. now rewrite andb_true_r.
  - destruct l as [|x rest]; [reflexivity|].
    change (run (Repeat (S n) (Class rs)) (b, x :: rest))
      with (flat_map (run (Repeat n (Class rs))) (run (Class rs) (b, x :: rest))).
    set (R := run (Repeat n (Class rs))) in *.
    simpl run. simpl firstn. simpl forallb. simpl length. simpl skipn.
    change (S n <=? S (length rest))%nat with (n <=? length rest)%nat.
    destruct (in_class rs x).
    + simpl flat_map. subst R. rewrite IH, app_nil_r. simpl andb at 2.
      destruct (_ && _); [|reflexivity].
      now rewrite andb_false_r.
    + simpl. now rewrite andb_false_r.
Qed.

Lemma matches_at_later (text : list ascii) (i : nat) :
  matches_at addrRegex text (S i) = false.
Proof. reflexivity. Qed.

Lemma existsb_later (text : list ascii) (n : nat) :
  forall k : nat, existsb (matches_at addrRegex text) (seq (S k) n) = false.
Proof.
  induction n as [|n IH]; intros k; [reflexivity|].
  cbn [seq existsb]. now rewrite matches_at_later, IH.
Qed.

Lemma firstn_skipn_40 (ds : list ascii) :
  ((40 <=? length ds)%nat && forallb is_hex_digit (firstn 40 ds)
   && match skipn 40 ds with [] => true | _ :: _ => false end)
  = (Nat.eqb (length ds) 40 && forallb is_hex_digit ds).
Proof.
  destruct (Nat.eqb (length ds) 40) eqn:E.
  - apply Nat.eqb_eq in E.
    rewrite firstn_all2 by lia. rewrite skipn_all2 by lia.
    rewrite (proj2 (Nat.leb_le 40 (length ds))) by lia.
    now rewrite andb_true_r.
  - apply Nat.eqb_neq in E. rewrite andb_false_l.
    destruct (40 <=? length ds)%nat eqn:L; [|reflexivity].
    apply Nat.leb_le in L.
    destruct (skipn 40 ds) eqn:S; [|now rewrite andb_false_r].
    apply (f_equal (@length ascii)) in S. rewrite length_skipn in S.
    cbn [length] in S. lia.
Qed.

Lemma run_Cat (r1 r2 : regex) (st : pos) :
  run (Cat r1 r2) st = flat_map (run r2) (run r1 st).
Proof. reflexivity. Qed.

Lemma run_Lit (c x : ascii) (b : bool) (rest : list ascii) :
  run (Lit c) (b, x :: rest) = if Ascii.eqb x c then [(false, rest)] else [].
Proof. reflexivity. Qed.

Lemma forallb_eq {A} (f g : A -> bool) (l : list A) :
  (forall x, f x = g x) -> forallb f l = forallb g l.
Proof.
  intros E. induction l as [|x l IH]; [reflexivity|].
  cbn [forallb]. now rewrite E, IH.
Qed.

Lemma flat_map_one {A B} (f : A -> list B) (x : A) : flat_map f [x] = f x.
Proof. apply app_nil_r. Qed.

Lemma matches_at_0 (text : list ascii) :
  matches_at addrRegex text 0 = address_shape text.
Proof.
  unfold matches_at, addrRegex.
  change (skipn 0 text) with text. change (Nat.eqb 0 0) with true.
  rewrite run_Cat.
  change (run BeginText (true, text)) with [(true, text)].
  rewrite flat_map_one, run_Cat.
  destruct text as [|c0 [|c1 ds]]; [reflexivity| |].
  - rewrite run_Lit. cbn [address_shape].
    destruct (Ascii.eqb c0 "0"); reflexivity.
  - rewrite run_Lit. cbn [address_shape].
    destruct (Ascii.eqb c0 "0"); [|reflexivity].
    rewrite flat_map_one, run_Cat, run_Lit.
    destruct (Ascii.eqb c1 "x"); [|reflexivity].
    rewrite flat_map_one, run_Cat. fold hex_ranges.
    rewrite (run_Repeat_Class hex_ranges 40 false ds).
    cbn [andb]. rewrite <- firstn_skipn_40.
    rewrite (forallb_eq _ _ _ in_class_hex).
    destruct (_ && forallb _ _); [|reflexivity].
    rewrite flat_map_one. cbn [run snd andb].
    now destruct (skipn 40 ds).
Qed.

Lemma IsValidAddress_shape (s : string) :
  IsValidAddress s = address_shape (list_ascii_of_string s).
Proof.
  unfold IsValidAddress, MatchString. cbn [seq existsb].
  now rewrite existsb_later, orb_false_r, matches_at_0.
Qed.

Lemma address_shape_format (s : string) :
  address_shape (list_ascii_of_string s) = true <-> address_format s.
Proof.
  split.
  - destruct s as [|c0 [|c1 s]]; try discriminate. simpl.
    intros H. repeat (apply andb_prop in H as [H ?]).
    apply Ascii.eqb_eq in H as ->. apply Ascii.eqb_eq in H2 as ->.
    exists (list_ascii_of_string s). rewrite string_of_list_ascii_of_string.
    split; [reflexivity|]. split; [now apply Nat.eqb_eq|assumption].
  - intros (ds & -> & L & F). simpl.
    rewrite list_ascii_of_string_of_list_ascii, L, F. reflexivity.
Qed.

End AddressFormat.

Lemma length_list_ascii_of_string (s : string) :
  length (list_ascii_of_string s) = String.length s.
Proof. induction s as [|c s IH]; simpl; [reflexivity|now rewrite IH]. Qed.

(** C8: [IsValidAddress(s)] is true exactly when [s] is [0x] followed by
    40 hexadecimal digits of either case, 42 characters in all. A [0x]
    with 39 digits is rejected, and so is ["not-hex"]. *)
Theorem IsValidAddress_spec :
  (forall s : string,
      EthAddress.IsValidAddress s = true
      <-> String.length s = 42%nat /\ address_format s) /\
  (forall ds : list ascii,
      length ds = 39%nat ->
      EthAddress.IsValidAddress (String "0" (String "x" (string_of_list_ascii ds))) = false) /\
  EthAddress.IsValidAddress "not-hex" = false.
Proof.
  assert (A : forall s, EthAddress.IsValidAddress s = true
                        <-> String.length s = 42%nat /\ address_format s).
  { intros s. rewrite IsValidAddress_shape, address_shape_format.
    split; [|tauto]. intros F. split; [|assumption].
    destruct F as (ds & -> & L & _). simpl.
    now rewrite <- length_list_ascii_of_string, list_ascii_of_string_of_list_ascii, L. }
  split; [exact A|]. split; [|reflexivity].
  intros ds L. apply not_true_is_false. intros T. apply A in T as [T _].
  simpl in T.
  rewrite <- length_list_ascii_of_string, list_ascii_of_string_of_list_ascii in T. lia.
Qed.

Lemma IsValidAddress_spec_witness :
  EthAddress.IsValidAddress short_address = false.
Proof.
  apply (proj1 (proj2 IsValidAddress_spec)
           (list_ascii_of_string "000000000000000000000000000000000000000")).
  reflexivity.
Defined.

Example IsValidAddress_zero : EthAddress.IsValidAddress zero_address = true.
Proof. reflexivity. Qed.

Example IsValidAddress_mixed : EthAddress.IsValidAddress mixed_address = true.
Proof. reflexivity. Qed.

Example IsValidAddress_upper_prefix :
  EthAddress.IsValidAddress "0X0000000000000000000000000000000000000000" = false.
Proof. reflexivity. Qed.

(** ** Contract classification *)

(** C9: on an address that [IsValidAddress] rejects,
    [IsSmartContractCtx] fails with "invalid address" and no request has
    been sent to the node; on an accepted address for which the node
    returns bytecode, one request has been sent, there is no error, and
    the answer is true exactly when the bytecode is not empty. *)
Theorem IsSmartContractCtx_spec
    (Address : Type) (HexToAddress : string -> Address)
    (CodeAt : list Address -> Address -> list ascii + EthAddress.error)
    (address : string) (w : list Address) :
  (EthAddress.IsValidAddress address = false ->
   EthAddress.IsSmartContractCtx Address HexToAddress CodeAt address w
   = ((false, Some (EthAddress.ErrorNew "invalid address")), w)) /\
  (forall byteCode : list ascii,
      EthAddress.IsValidAddress address = true ->
      CodeAt w (HexToAddress address) = inl byteCode ->
      exists b : bool,
        EthAddress.IsSmartContractCtx Address HexToAddress CodeAt address w
        = ((b, None), w ++ [HexToAddress address])
        /\ (b = true <-> byteCode <> [])).
Proof.
  unfold EthAddress.IsSmartContractCtx, EthAddress.call_CodeAt. split.
  - intros ->. reflexivity.
  - intros byteCode -> ->. cbn [negb].
    exists (0 <? length byteCode)%nat. split; [reflexivity|].
    rewrite Nat.ltb_lt. destruct byteCode; cbn [length]; split; intros H.
    + lia.
    + now destruct H.
    + discriminate.
    + lia.
Qed.

Lemma IsSmartContractCtx_spec_witness :
  EthAddress.IsSmartContractCtx string id sample_node "not-hex" []
  = ((false, Some (EthAddress.ErrorNew "invalid address")), [])
  /\ exists b : bool,
      EthAddress.IsSmartContractCtx string id sample_node mixed_address []
      = ((b, None), [] ++ [id mixed_address])
      /\ (b = true <-> ["`"; "`"]%char <> []).
Proof.
  split.
  - apply (proj1 (IsSmartContractCtx_spec string id sample_node "not-hex" [])).
    reflexivity.
  - apply (proj2 (IsSmartContractCtx_spec string id sample_node mixed_address [])
             ["`"; "`"]%char); reflexivity.
Defined.

Example IsSmartContractCtx_transport_failure
    (failing := fun (_ : list string) (_ : string) =>
                  inr (EthAddress.ErrorNew "connection refused")
                  : list ascii + EthAddress.error) :
  EthAddress.IsSmartContractCtx string id failing zero_address []
  = ((false,
      Some (EthAddress.ErrorWrap "failed to get bytecode: "
              (EthAddress.ErrorNew "connection refused"))),
     [zero_address]).
Proof. reflexivity. Qed.

(** ** Rounding on fractions *)

Section RoundingFacts.

Import Decimal Rounding.

Lemma Qeq_nonneg_num (q q' : Q) :
  q == q' -> (0 <=? Qnum q) = (0 <=? Qnum q').
Proof.
  destruct q as [n d], q' as [n' d']. unfold Qeq. cbn [Qnum Qden]. intros H.
  destruct (Z.leb_spec 0 n), (Z.leb_spec 0 n'); try reflexivity; nia.
Qed.

Lemma Qeq_sgn_num (q q' : Q) : q == q' -> Z.sgn (Qnum q) = Z.sgn (Qnum q').
Proof.
  destruct q as [n d], q' as [n' d']. unfold Qeq. cbn [Qnum Qden]. intros H.
  destruct (Z.sgn_spec n) as [[? ->]|[[? ->]|[? ->]]],
           (Z.sgn_spec n') as [[? ->]|[[? ->]|[? ->]]]; try reflexivity; nia.
Qed.

Lemma Qtrunc_floor_ceiling (q : Q) :
  Qtrunc q = if 0 <=? Qnum q then Qfloor q else Qceiling q.
Proof.
  destruct q as [n d]. unfold Qtrunc, Qceiling, Qfloor, Qopp. cbn [Qnum Qden].
  destruct (Z.leb_spec 0 n) as [Hn|Hn].
  - apply Z.quot_div_nonneg; lia.
  - rewrite <- (Z.quot_div_nonneg (- n) (Z.pos d)) by lia.
    rewrite Z.quot_opp_l by lia. lia.
Qed.

Lemma Qtrunc_comp (q q' : Q) : q == q' -> Qtrunc q = Qtrunc q'.
Proof.
  intros E. rewrite !Qtrunc_floor_ceiling, (Qeq_nonneg_num _ _ E).
  now rewrite (Qfloor_comp _ _ E), (Qceiling_comp _ _ E).
Qed.

Lemma Qround_half_away_comp (q q' : Q) :
  q == q' -> Qround_half_away q = Qround_half_away q'.
Proof.
  intros E. unfold Qround_half_away. rewrite (Qeq_sgn_num _ _ E).
  f_equal. apply Qfloor_comp. now rewrite E.
Qed.

Lemma Qtrunc_inject (z : Z) : Qtrunc (inject_Z z) = z.
Proof. unfold Qtrunc, inject_Z. cbn [Qnum Qden]. apply Z.quot_1_r. Qed.

Lemma Qround_half_away_inject (z : Z) : Qround_half_away (inject_Z z) = z.
Proof.
  unfold Qround_half_away, inject_Z, Qabs, Qplus, Qfloor. cbn [Qnum Qden].
  replace (Z.abs z * 2 + 1 * 1) with (1 + Z.abs z * 2) by lia.
  change (Z.pos (1 * 2)) with 2.
  rewrite Z.div_add by lia. change (1 / 2) with 0.
  destruct (Z.sgn_spec z) as [[? ->]|[[? ->]|[? ->]]]; lia.
Qed.

Lemma Qround_half_away_frac (n : Z) (d : positive) :
  Qround_half_away (n # d) = Z.sgn n * ((2 * Z.abs n + Z.pos d) / (2 * Z.pos d)).
Proof.
  unfold Qround_half_away, Qabs, Qplus, Qfloor. cbn [Qnum Qden].
  f_equal. f_equal; lia.
Qed.

Lemma pow10_pos (k : Z) : 0 <= k -> 0 < 10 ^ k.
Proof. intros. apply Z.pow_pos_nonneg; lia. Qed.

Lemma ten_nonzero : ~ 10 == 0.
Proof. discriminate. Qed.

(** An integer times a power of ten, as an integer or as a fraction. *)
Lemma scale_Q (v k : Z) :
  inject_Z v * 10 ^ k
  == if 0 <=? k then inject_Z (v * 10 ^ k) else v # Z.to_pos (10 ^ (- k)).
Proof.
  destruct (Z.leb_spec 0 k) as [Hk|Hk].
  - rewrite inject_Z_mult. apply Qmult_comp; [reflexivity|].
    symmetry. exact (Zpower_Qpower 10 k Hk).
  - replace k with (- (- k))%Z at 1 by lia.
    rewrite Qpower_opp, <- (Zpower_Qpower 10 (- k)) by lia.
    pose proof (pow10_pos (- k) ltac:(lia)) as P.
    destruct (10 ^ (- k))%Z as [|p|p] eqn:E; try lia.
    unfold Qeq, Qmult, Qinv, inject_Z. cbn. lia.
Qed.

Lemma Qtrunc_scale (v k : Z) :
  Qtrunc (inject_Z v * 10 ^ k)
  = if 0 <=? k then v * 10 ^ k else Z.quot v (10 ^ (- k)).
Proof.
  rewrite (Qtrunc_comp _ _ (scale_Q v k)).
  destruct (Z.leb_spec 0 k) as [Hk|Hk]; [apply Qtrunc_inject|].
  unfold Qtrunc. cbn [Qnum Qden].
  pose proof (pow10_pos (- k) ltac:(lia)).
  now rewrite Z2Pos.id.
Qed.

Lemma Qround_half_away_scale (v k : Z) :
  Qround_half_away (inject_Z v * 10 ^ k)
  = if 0 <=? k then v * 10 ^ k
    else Z.sgn v * ((2 * Z.abs v + 10 ^ (- k)) / (2 * 10 ^ (- k))).
Proof.
  rewrite (Qround_half_away_comp _ _ (scale_Q v k)).
  destruct (Z.leb_spec 0 k) as [Hk|Hk]; [apply Qround_half_away_inject|].
  rewrite Qround_half_away_frac.
  pose proof (pow10_pos (- k) ltac:(lia)).
  now rewrite Z2Pos.id.
Qed.

(** Rounding a fraction half away from zero, from the truncated quotient
    and remainder. *)
Lemma round_half_away_quot_rem (u B : Z) :
  0 < B ->
  Z.sgn u * ((2 * Z.abs u + B) / (2 * B))
  = if 2 * Z.abs (Z.rem u B) <? B then Z.quot u B
    else if u <? 0 then Z.quot u B - 1 else Z.quot u B + 1.
Proof.
  intros HB.
  pose proof (Z.quot_rem' u B) as E.
  pose proof (Z.rem_bound_abs u B ltac:(lia)) as Hr.
  assert (Hs : 0 <= u -> 0 <= Z.rem u B) by (intros; apply Z.rem_nonneg; lia).
  assert (Hn : u <= 0 -> Z.rem u B <= 0) by (intros; apply Z.rem_nonpos; lia).
  set (q := Z.quot u B) in *. set (r := Z.rem u B) in *.
  assert (D : forall m t : Z, 0 <= t < 2 * B -> (m * (2 * B) + t) / (2 * B) = m).
  { intros m t Ht. rewrite Z.add_comm, Z.div_add by lia.
    rewrite Z.div_small by lia. lia. }
  destruct (Z.ltb_spec (2 * Z.abs r) B) as [Hlt|Hge];
    destruct (Z.ltb_spec u 0) as [Hu|Hu].
  - replace (2 * Z.abs u + B) with ((- q) * (2 * B) + (2 * Z.abs r + B)) by nia.
    rewrite D by lia. rewrite Z.sgn_neg by lia. lia.
  - replace (2 * Z.abs u + B) with (q * (2 * B) + (2 * Z.abs r + B)) by nia.
    rewrite D by lia.
    destruct (Z.eq_dec u 0) as [->|]; [subst q; now rewrite Z.quot_0_l by lia|].
    rewrite Z.sgn_pos by lia. lia.
  - replace (2 * Z.abs u + B) with ((- q + 1) * (2 * B) + (2 * Z.abs r - B)) by nia.
    rewrite D by lia. rewrite Z.sgn_neg by lia. lia.
  - replace (2 * Z.abs u + B) with ((q + 1) * (2 * B) + (2 * Z.abs r - B)) by nia.
    rewrite D by lia.
    assert (u <> 0) by (intros ->; subst r; rewrite Z.rem_0_l in Hge; lia).
    rewrite Z.sgn_pos by lia. lia.
Qed.

End RoundingFacts.

(** ** The decimal operations on powers of ten *)

Section DecimalFacts.

Import Decimal Rounding.

Lemma wrap32_id (z : Z) : MinInt32 <= z <= MaxInt32 -> wrap32 z = z.
Proof.
  unfold MinInt32, MaxInt32, wrap32. intros H.
  rewrite Z.mod_small; lia.
Qed.

Lemma in_int32 (e : Z) :
  MinInt32 <= e <= MaxInt32 -> (e >? MaxInt32) || (e <? MinInt32) = false.
Proof.
  intros H. rewrite Z.gtb_ltb. apply orb_false_intro; apply Z.ltb_ge; lia.
Qed.

Lemma rescale_0_value (v e : Z) :
  dvalue (rescale (mkDec v e) 0)
  = if 0 <=? e then v * 10 ^ e else Z.quot v (10 ^ (- e)).
Proof.
  unfold rescale, Big.quo. cbn [dvalue dexp].
  destruct (Z.eqb_spec e 0) as [->|Hne]; [cbn; lia|].
  rewrite Z.gtb_ltb.
  destruct (Z.ltb_spec e 0) as [Hlt|Hge].
  - rewrite (proj2 (Z.leb_gt 0 e)) by lia. cbn [dvalue].
    now replace (Z.abs (0 - e)) with (- e) by lia.
  - rewrite (proj2 (Z.leb_le 0 e)) by lia.
    rewrite (proj2 (Z.ltb_lt 0 e)) by lia. cbn [dvalue].
    now replace (Z.abs (0 - e)) with e by lia.
Qed.

Lemma to_Q_scale (d : Decimal) (k : Z) :
  to_Q d * 10 ^ k == inject_Z (dvalue d) * 10 ^ (dexp d + k).
Proof.
  unfold to_Q. rewrite (Qpower_plus 10 (dexp d) k ten_nonzero). ring.
Qed.

(** Multiplying by a power of ten and taking the integer part
    truncates. *)
Lemma Mul_pow10_BigInt (d : Decimal) (k : Z) :
  MinInt32 <= dexp d + k <= MaxInt32 ->
  exists d', Mul d (New 1 k) = Ret d'
             /\ dvalue (rescale d' 0) = Qtrunc (to_Q d * 10 ^ k).
Proof.
  intros H. unfold Mul, New. cbn [dvalue dexp]. rewrite (in_int32 _ H).
  eexists. split; [reflexivity|].
  rewrite rescale_0_value, Z.mul_1_r.
  now rewrite (Qtrunc_comp _ _ (to_Q_scale d k)), Qtrunc_scale.
Qed.

(** A positive decimal times a power of ten beyond its own exponent
    rounds to more than its digits. *)
Lemma Qround_half_away_large (v x k : Z) :
  0 < v -> 0 < x + k -> v < Qround_half_away (to_Q (mkDec v x) * 10 ^ k).
Proof.
  intros Hv Hk.
  rewrite (Qround_half_away_comp _ _ (to_Q_scale (mkDec v x) k)).
  rewrite Qround_half_away_scale. cbn [dvalue dexp].
  rewrite (proj2 (Z.leb_le 0 (x + k))) by lia.
  pose proof (proj1 (Z.pow_gt_1 10 (x + k) ltac:(lia)) Hk). nia.
Qed.

Ltac split_tests :=
  repeat (match goal with
          | |- context [?a <? ?b] => destruct (Z.ltb_spec a b)
          | |- context [?a =? ?b] => destruct (Z.eqb_spec a b)
          end; try lia).

(** Zero is below every positive decimal. *)
Lemma Cmp_zero_pos (e m e' : Z) : 0 < m -> Cmp (mkDec 0 e) (mkDec m e') = -1.
Proof.
  intros Hm. unfold Cmp, RescalePair, rescale, Big.quo. cbn [dvalue dexp].
  assert (P : forall n, 0 < 10 ^ Z.abs n) by (intros; apply pow10_pos; lia).
  rewrite !Z.gtb_ltb. split_tests; cbn [dvalue];
    match goal with
    | |- match ?x ?= ?y with _ => _ end = -1 =>
        assert (L : x < y); [|now rewrite (proj2 (Z.compare_lt_iff x y) L)]
    end.
  all: first
         [ exact Hm
         | now rewrite Z.mul_0_l
         | match goal with
           | |- 0 < _ * 10 ^ Z.abs ?n => specialize (P n); nia
           end ].
Qed.

(** Comparing with a power of ten at a larger exponent. *)
Lemma Cmp_pow10 (a U exp : Z) :
  U < exp ->
  (Cmp (mkDec a U) (mkDec 1 exp) <? 0) = (a <? 10 ^ (exp - U)).
Proof.
  intros H. unfold Cmp, RescalePair, rescale. cbn [dvalue dexp].
  rewrite !Z.gtb_ltb.
  repeat match goal with
         | |- context [U <? exp] => rewrite (proj2 (Z.ltb_lt U exp)) by lia
         | |- context [exp <? U] => rewrite (proj2 (Z.ltb_ge exp U)) by lia
         | |- context [U =? exp] => rewrite (proj2 (Z.eqb_neq U exp)) by lia
         | |- context [exp =? U] => rewrite (proj2 (Z.eqb_neq exp U)) by lia
         end.
  cbn [dvalue].
  replace (Z.abs (U - exp)) with (exp - U) by lia. rewrite Z.mul_1_l.
  destruct (Z.compare_spec a (10 ^ (exp - U))) as [E|L|G];
    destruct (Z.ltb_spec a (10 ^ (exp - U))); try lia; reflexivity.
Qed.

Lemma Add_same_exp (a b e : Z) : Add (mkDec a e) (mkDec b e) = mkDec (a + b) e.
Proof.
  unfold Add, RescalePair. cbn [dexp].
  now rewrite Z.gtb_ltb, Z.ltb_irrefl.
Qed.

Lemma Sub_same_exp (a b e : Z) : Sub (mkDec a e) (mkDec b e) = mkDec (a - b) e.
Proof.
  unfold Sub, RescalePair. cbn [dexp].
  now rewrite Z.gtb_ltb, Z.ltb_irrefl.
Qed.

Lemma DivRound_pow10 (u exp U : Z) :
  0 <= U <= MaxInt32 -> MinInt32 <= exp <= MaxInt32 -> U - exp <= MaxInt32 ->
  DivRound (mkDec u 0) (New 1 exp) U = Ret (mkDec (div_pow10_round u exp U) (- U)).
Proof.
  intros HU Hexp He. unfold MinInt32, MaxInt32 in *.
  assert (W : wrap32 (- U) = - U) by (apply wrap32_id; unfold MinInt32, MaxInt32; lia).
  unfold DivRound, QuoRem, New, div_pow10_round. cbn [dvalue dexp].
  change (1 =? 0) with false. cbv iota. rewrite !W.
  rewrite in_int32 by (unfold MinInt32, MaxInt32; lia).
  replace (0 - exp - - U) with (U - exp) by lia.
  destruct (Z.ltb_spec (U - exp) 0) as [Hneg|Hpos].
  - rewrite (proj2 (Z.leb_gt 0 (U - exp))) by lia.
    cbn [dvalue dexp]. unfold Big.quo, Big.rem, Abs. cbn [dvalue dexp].
    replace (- (U - exp)) with (exp - U) by lia. rewrite Z.mul_1_l.
    change (Z.abs 1) with 1.
    rewrite Z.shiftl_mul_pow2 by lia. change (2 ^ 1) with 2.
    rewrite (wrap32_id (0 + U)) by (unfold MinInt32, MaxInt32; lia).
    rewrite Z.add_0_l, Cmp_pow10 by lia.
    replace (Z.abs (Z.rem u (10 ^ (exp - U))) * 2)
      with (2 * Z.abs (Z.rem u (10 ^ (exp - U)))) by lia.
    destruct (_ <? 10 ^ (exp - U)); [reflexivity|].
    change (Z.sgn 1) with 1. rewrite Z.mul_1_r.
    rewrite Sub_same_exp, Add_same_exp.
    destruct (Z.ltb_spec u 0) as [Hu|Hu].
    + now rewrite Z.sgn_neg.
    + destruct (Z.ltb_spec (Z.sgn u) 0) as [Hs|Hs]; [|reflexivity].
      pose proof (Z.sgn_nonneg u). lia.
  - rewrite (proj2 (Z.leb_le 0 (U - exp))) by lia.
    cbn [dvalue dexp]. unfold Big.quo, Big.rem, Abs. cbn [dvalue dexp].
    rewrite Z.quot_1_r, Z.rem_1_r. change (Z.abs 0) with 0.
    change (Z.shiftl 0 1) with 0. change (Z.abs 1) with 1.
    now rewrite Cmp_zero_pos.
Qed.

Lemma div_pow10_round_spec (u exp U : Z) :
  div_pow10_round u exp U = Qround_half_away (inject_Z u / 10 ^ exp * 10 ^ U).
Proof.
  rewrite (Qround_half_away_comp _ (inject_Z u * 10 ^ (U - exp))).
  - rewrite Qround_half_away_scale. unfold div_pow10_round.
    destruct (Z.leb_spec 0 (U - exp)) as [H|H]; [reflexivity|].
    replace (- (U - exp)) with (exp - U) by lia.
    symmetry. apply round_half_away_quot_rem. apply pow10_pos. lia.
  - rewrite (Qpower_minus 10 U exp ten_nonzero). unfold Qdiv. ring.
Qed.

End DecimalFacts.

(** ** Construction from a decimal *)

Lemma with_decimal_amount h D z : amount (with_decimal h D z) (result_ptr h) D z.
Proof.
  exists (Some (S (length (ints h)))). split.
  - exists (length (coins h)). split; [reflexivity|]. apply lookup_snoc_new.
  - exists (S (length (ints h))). split; [reflexivity|]. cbn [ints with_decimal].
    replace (S (length (ints h))) with (length (ints h ++ [0]))
      by (rewrite length_app; cbn [length]; lia).
    apply lookup_snoc_new.
Qed.

Lemma from_decimal_run (D : ValueDefinition) (value : Decimal.Decimal)
      (k : ValueDefinition -> Z) (d' : Decimal.Decimal) (h : heap) :
  Decimal.Mul value (Decimal.New 1 (k D)) = Ret d' ->
  (do cv <- Types.NewCoinValue D None ;
   do c <- Types.load cv ;
   do d <- lift (Decimal.Mul value (Decimal.New 1 (k (def c)))) ;
   do p <- Decimal.BigInt d ;
   do _ <- Types.set_value cv p ;
   ret cv) h
  = (Ret (result_ptr h), with_decimal h D (Decimal.dvalue (Decimal.rescale d' 0))).
Proof.
  intros HM.
  unfold Types.NewCoinValue, Big.NewInt, Big.alloc, Types.new_CoinValue,
    Types.load, Types.set_value, Decimal.BigInt, Big.alloc, lift, bind, ret.
  cbn [ints coins]. rewrite lookup_snoc_new. cbn [def]. rewrite HM.
  cbn [ints coins]. rewrite lookup_snoc_new, insert_snoc. cbn [def].
  unfold with_decimal, result_ptr.
  now rewrite length_app, Nat.add_1_r.
Qed.

Lemma NewCoinValueFromCoins_run D value d' h :
  Decimal.Mul value (Decimal.New 1 (UnitExp D)) = Ret d' ->
  Types.NewCoinValueFromCoins D value h
  = (Ret (result_ptr h), with_decimal h D (Decimal.dvalue (Decimal.rescale d' 0))).
Proof. exact (from_decimal_run D value UnitExp d' h). Qed.

Lemma NewCoinValueFromScaled_run D value exp d' h :
  Decimal.Mul value (Decimal.New 1 (Decimal.wrap32 (UnitExp D - exp))) = Ret d' ->
  Types.NewCoinValueFromScaled D value exp h
  = (Ret (result_ptr h), with_decimal h D (Decimal.dvalue (Decimal.rescale d' 0))).
Proof.
  exact (from_decimal_run D value (fun D => Decimal.wrap32 (UnitExp D - exp)) d' h).
Qed.

(** C4, as the spec states it, fails. One and a half smallest units are
    cut to one unit, where rounding half away from zero gives two; this
    holds for [NewCoinValueFromCoins] and for [NewCoinValueFromScaled]. A
    decimal whose exponent is already the largest int32 makes the
    constructor panic. And for the smallest int32 as scale exponent the
    difference [18 - scaleExp] wraps around, so that the units are not
    those of the formula. *)
Lemma constructors_rounding_counterexample :
  (exists v h',
      Types.NewCoinValueFromCoins Eth.ethDefinition (Decimal.mkDec 15 (-19)) empty_heap
      = (Ret v, h')
      /\ Types.units_of h' v = Some 1
      /\ Rounding.Qround_half_away
           (Rounding.to_Q (Decimal.mkDec 15 (-19)) * 10 ^ UnitExp Eth.ethDefinition)
         = 2) /\
  (exists v h',
      Types.NewCoinValueFromScaled Eth.ethDefinition (Decimal.mkDec 15 (-10)) 9 empty_heap
      = (Ret v, h')
      /\ Types.units_of h' v = Some 1
      /\ Rounding.Qround_half_away
           (Rounding.to_Q (Decimal.mkDec 15 (-10)) * 10 ^ (UnitExp Eth.ethDefinition - 9))
         = 2) /\
  fst (Types.NewCoinValueFromCoins Eth.ethDefinition
         (Decimal.mkDec 1 Decimal.MaxInt32) empty_heap)
  = Panic (PanicExponentOverflow 2147483665) /\
  (exists v h',
      Types.NewCoinValueFromScaled Eth.ethDefinition (Decimal.mkDec 1 2147483630)
        Decimal.MinInt32 empty_heap
      = (Ret v, h')
      /\ Types.units_of h' v = Some 1
      /\ 1 < Rounding.Qround_half_away
               (Rounding.to_Q (Decimal.mkDec 1 2147483630)
                * 10 ^ (UnitExp Eth.ethDefinition - Decimal.MinInt32))).
Proof.
  split; [|split; [|split]].
  - eexists _, _. split; [reflexivity|]. split; reflexivity.
  - eexists _, _. split; [reflexivity|]. split; reflexivity.
  - reflexivity.
  - eexists _, _. split; [reflexivity|]. split; [reflexivity|].
    apply Qround_half_away_large; [lia|].
    unfold Decimal.MinInt32. cbn [UnitExp Eth.ethDefinition]. lia.
Qed.

(** C4 (amended): for a decimal [d] and a definition with unit exponent
    [U], when the exponent of [d] plus [U] is an int32,
    [NewCoinValueFromCoins(d)] has units [d * 10^U] truncated toward zero;
    and for a scale exponent such that [U - scaleExp] and the exponent of
    [d] plus [U - scaleExp] are int32,
    [NewCoinValueFromScaled(d, scaleExp)] has units
    [d * 10^(U - scaleExp)] truncated toward zero. *)
Theorem constructors_truncate D d h :
  (Decimal.MinInt32 <= Decimal.dexp d + UnitExp D <= Decimal.MaxInt32 ->
   exists v h',
     Types.NewCoinValueFromCoins D d h = (Ret v, h')
     /\ Types.units_of h' v
        = Some (Rounding.Qtrunc (Rounding.to_Q d * 10 ^ UnitExp D))) /\
  (forall scaleExp,
      Decimal.MinInt32 <= UnitExp D - scaleExp <= Decimal.MaxInt32 ->
      Decimal.MinInt32 <= Decimal.dexp d + (UnitExp D - scaleExp) <= Decimal.MaxInt32 ->
      exists v h',
        Types.NewCoinValueFromScaled D d scaleExp h = (Ret v, h')
        /\ Types.units_of h' v
           = Some (Rounding.Qtrunc (Rounding.to_Q d * 10 ^ (UnitExp D - scaleExp)))).
Proof.
  split.
  - intros H1.
    destruct (Mul_pow10_BigInt d (UnitExp D) H1) as (d' & HM & HV).
    eexists _, _. split; [exact (NewCoinValueFromCoins_run D d d' h HM)|].
    rewrite HV. exact (units_of_amount _ _ _ _ (with_decimal_amount h D _)).
  - intros scaleExp H2 H3.
    destruct (Mul_pow10_BigInt d (UnitExp D - scaleExp) H3) as (d' & HM & HV).
    rewrite <- (wrap32_id _ H2) in HM.
    eexists _, _. split; [exact (NewCoinValueFromScaled_run D d scaleExp d' h HM)|].
    rewrite HV. exact (units_of_amount _ _ _ _ (with_decimal_amount h D _)).
Qed.

Lemma constructors_truncate_witness :
  (exists v h',
      Types.NewCoinValueFromCoins Eth.ethDefinition (Decimal.mkDec 15 (-1)) empty_heap
      = (Ret v, h')
      /\ Types.units_of h' v
         = Some (Rounding.Qtrunc
                   (Rounding.to_Q (Decimal.mkDec 15 (-1)) * 10 ^ UnitExp Eth.ethDefinition))) /\
  (exists v h',
      Types.NewCoinValueFromScaled Eth.ethDefinition (Decimal.mkDec 15 (-1)) 9 empty_heap
      = (Ret v, h')
      /\ Types.units_of h' v
         = Some (Rounding.Qtrunc
                   (Rounding.to_Q (Decimal.mkDec 15 (-1))
                    * 10 ^ (UnitExp Eth.ethDefinition - 9)))).
Proof.
  split.
  - apply (proj1 (constructors_truncate Eth.ethDefinition (Decimal.mkDec 15 (-1))
                    empty_heap)).
    vm_compute. split; discriminate.
  - apply (proj2 (constructors_truncate Eth.ethDefinition (Decimal.mkDec 15 (-1))
                    empty_heap) 9);
      vm_compute; split; discriminate.
Defined.

(** A decimal whose own exponent plus 18 is no int32 is still accepted at
    a scale that brings the sum back into range. *)
Example NewCoinValueFromScaled_large_exponent :
  exists v h',
    Types.NewCoinValueFromScaled Eth.ethDefinition (Decimal.mkDec 1 2147483630)
      2147483647 empty_heap = (Ret v, h')
    /\ Types.units_of h' v = Some 10.
Proof. eexists _, _. split; reflexivity. Qed.

Example NewEth_one_and_a_half :
  exists v h', Eth.NewEth (Decimal.mkDec 15 (-1)) empty_heap = (Ret v, h')
               /\ Types.units_of h' v = Some 1500000000000000000.
Proof. eexists _, _. split; reflexivity. Qed.

(** ** Decimal accessors *)

Lemma ScaledValue_amount h v D u exp :
  amount h v D u ->
  Types.ScaledValue v exp h
  = (Decimal.DivRound (Decimal.mkDec u 0) (Decimal.New 1 exp) (UnitExp D), h).
Proof.
  intros (p & Pv & (k & -> & Hk)).
  unfold Types.ScaledValue, Decimal.NewFromBigInt, bind, ret, lift.
  rewrite (load_points_to _ _ _ Pv). cbn [value def].
  unfold Big.load. now rewrite Hk.
Qed.

Lemma Coins_ScaledValue h v cv :
  points_to h v cv -> Types.Coins v h = Types.ScaledValue v (UnitExp (def cv)) h.
Proof.
  intros Pv. unfold Types.Coins, Types.ScaledValue, bind.
  now rewrite (load_points_to _ _ _ Pv).
Qed.

Lemma ScaledValue_rounds_at h v D u scaleExp :
  amount h v D u ->
  0 <= UnitExp D <= Decimal.MaxInt32 ->
  Decimal.MinInt32 <= scaleExp <= Decimal.MaxInt32 ->
  UnitExp D - scaleExp <= Decimal.MaxInt32 ->
  Types.ScaledValue v scaleExp h
  = (Ret (Rounding.Qround_places (inject_Z u / 10 ^ scaleExp) (UnitExp D)), h).
Proof.
  intros Hv HU Hs He.
  rewrite (ScaledValue_amount _ _ _ _ _ Hv).
  rewrite DivRound_pow10 by assumption.
  now rewrite div_pow10_round_spec.
Qed.

Lemma Coins_rounds h v D u :
  amount h v D u ->
  0 <= UnitExp D <= Decimal.MaxInt32 ->
  Types.Coins v h
  = (Ret (Rounding.Qround_places (inject_Z u / 10 ^ UnitExp D) (UnitExp D)), h).
Proof.
  intros Hv HU. pose proof Hv as (p & Pv & _).
  rewrite (Coins_ScaledValue _ _ _ Pv). cbn [def].
  apply ScaledValue_rounds_at; try assumption;
    unfold Decimal.MinInt32, Decimal.MaxInt32 in *; lia.
Qed.

(** C5, as the spec states it, fails for the scale exponents so far
    below zero that [unitExponent - scaleExp] is no int32: for Ether and
    the smallest int32 the call panics. *)
Lemma ScaledValue_overflow_counterexample :
  amount sample (Some 4%nat) Eth.ethDefinition 7 /\
  Types.ScaledValue (Some 4%nat) Decimal.MinInt32 sample
  = (Panic (PanicString "overflow in decimal QuoRem"), sample).
Proof.
  split; [now apply (sample_amount 4 3)|reflexivity].
Qed.

(** C5 (amended): for an amount of [u] units whose unit exponent [U] is
    not negative, and a scale exponent with [U - scaleExp] at most the
    largest int32, [ScaledValue(scaleExp)] is [u / 10^scaleExp] rounded,
    halves away from zero, to [U] decimal places, whatever the scale;
    [Coins()] is [u / 10^U] rounded to [U] decimal places. *)
Theorem ScaledValue_rounds h v D u scaleExp :
  amount h v D u ->
  0 <= UnitExp D <= Decimal.MaxInt32 ->
  Decimal.MinInt32 <= scaleExp <= Decimal.MaxInt32 ->
  UnitExp D - scaleExp <= Decimal.MaxInt32 ->
  Types.ScaledValue v scaleExp h
  = (Ret (Rounding.Qround_places (inject_Z u / 10 ^ scaleExp) (UnitExp D)), h) /\
  Types.Coins v h
  = (Ret (Rounding.Qround_places (inject_Z u / 10 ^ UnitExp D) (UnitExp D)), h).
Proof.
  intros Hv HU Hs He. split.
  - now apply ScaledValue_rounds_at.
  - now apply Coins_rounds.
Qed.

Lemma ScaledValue_rounds_witness :
  Types.ScaledValue (Some 4%nat) 19 sample
  = (Ret (Rounding.Qround_places (inject_Z 7 / 10 ^ 19) (UnitExp Eth.ethDefinition)),
     sample) /\
  Types.Coins (Some 4%nat) sample
  = (Ret (Rounding.Qround_places (inject_Z 7 / 10 ^ UnitExp Eth.ethDefinition)
            (UnitExp Eth.ethDefinition)),
     sample).
Proof.
  apply (ScaledValue_rounds sample (Some 4%nat) Eth.ethDefinition 7 19).
  - now apply (sample_amount 4 3).
  - vm_compute. split; discriminate.
  - vm_compute. split; discriminate.
  - vm_compute. discriminate.
Defined.

Example ScaledValue_giga :
  Types.ScaledValue (Some 0%nat) 9
    (mkHeap [1000000000] [mkCoin Eth.ethDefinition (Some 0%nat)])
  = (Ret (Decimal.mkDec 1000000000000000000 (-18)),
     mkHeap [1000000000] [mkCoin Eth.ethDefinition (Some 0%nat)]).
Proof. reflexivity. Qed.

Example ScaledValue_half_up :
  fst (Types.ScaledValue (Some 4%nat) 19 sample) = Ret (Decimal.mkDec 1 (-18)).
Proof. reflexivity. Qed.

(** C10: [Coins()] is [ScaledValue] at the unit exponent of the
    definition the amount is bound to; for an amount of [u] units and a
    unit exponent [U] that is not negative, both are [u / 10^U] rounded to
    [U] decimal places. *)
Theorem Coins_is_ScaledValue h v cv :
  points_to h v cv ->
  Types.Coins v h = Types.ScaledValue v (UnitExp (def cv)) h /\
  (forall u : Z,
      int_at h (value cv) u ->
      0 <= UnitExp (def cv) <= Decimal.MaxInt32 ->
      Types.Coins v h
      = (Ret (Rounding.Qround_places (inject_Z u / 10 ^ UnitExp (def cv))
                (UnitExp (def cv))), h)).
Proof.
  intros Pv. split; [exact (Coins_ScaledValue h v cv Pv)|].
  intros u Iu HU. destruct cv as [D p]. cbn [def value] in *.
  apply Coins_rounds; [|assumption]. exists p. now split.
Qed.

Lemma Coins_is_ScaledValue_witness :
  Types.Coins (Some 4%nat) sample
  = Types.ScaledValue (Some 4%nat) (UnitExp Eth.ethDefinition) sample /\
  Types.Coins (Some 4%nat) sample
  = (Ret (Rounding.Qround_places (inject_Z 7 / 10 ^ UnitExp Eth.ethDefinition)
            (UnitExp Eth.ethDefinition)), sample).
Proof.
  assert (P : points_to sample (Some 4%nat) (mkCoin Eth.ethDefinition (Some 3%nat))).
  { exists 4%nat. split; reflexivity. }
  destruct (Coins_is_ScaledValue sample (Some 4%nat)
              (mkCoin Eth.ethDefinition (Some 3%nat)) P) as [A B].
  split; [exact A|]. apply (B 7).
  - exists 3%nat. split; reflexivity.
  - vm_compute. split; discriminate.
Defined.

(** * Further properties *)

(** ** What the arithmetic computes *)

(** X1: for amounts of [a] and [b] units whose coin names agree, [Add],
    [Sub] and [Mul] return an amount of [a + b], [a - b] and [a * b]
    units, bound to the definition of the receiver. *)
Theorem Add_Sub_Mul_units h v o D D' a b :
  amount h v D a -> amount h o D' b -> CoinName D = CoinName D' ->
  (exists r h', Types.Add v o h = (Ret r, h') /\ amount h' r D (a + b)) /\
  (exists r h', Types.Sub v o h = (Ret r, h') /\ amount h' r D (a - b)) /\
  (exists r h', Types.Mul v o h = (Ret r, h') /\ amount h' r D (a * b)).
Proof.
  intros Hv Ho Hs. repeat split; eexists _, _; (split; [|apply with_result_amount]).
  - exact (Add_amount _ _ _ _ _ _ _ Hv Ho Hs).
  - exact (Sub_amount _ _ _ _ _ _ _ Hv Ho Hs).
  - exact (Mul_amount _ _ _ _ _ _ _ Hv Ho Hs).
Qed.

Lemma Add_Sub_Mul_units_witness :
  (exists r h', Types.Add (Some 0%nat) (Some 1%nat) sample = (Ret r, h')
                /\ amount h' r Eth.ethDefinition (-7 + 2)) /\
  (exists r h', Types.Sub (Some 0%nat) (Some 1%nat) sample = (Ret r, h')
                /\ amount h' r Eth.ethDefinition (-7 - 2)) /\
  (exists r h', Types.Mul (Some 0%nat) (Some 1%nat) sample = (Ret r, h')
                /\ amount h' r Eth.ethDefinition (-7 * 2)).
Proof.
  apply (Add_Sub_Mul_units sample (Some 0%nat) (Some 1%nat)
           Eth.ethDefinition Eth.ethDefinition (-7) 2).
  - now apply (sample_amount 0 0).
  - now apply (sample_amount 1 1).
  - reflexivity.
Defined.

(** X2: [MulScalar] by a scalar holding [k] returns an amount of [a * k]
    units bound to the definition of the receiver; the scalar can be any
    [big.Int], the number of another amount included, whatever its coin. *)
Theorem MulScalar_units h v s D a k :
  amount h v D a -> int_at h s k ->
  exists r h', Types.MulScalar v s h = (Ret r, h') /\ amount h' r D (a * k).
Proof.
  intros Hv Hk. eexists _, _. split; [|apply with_result_amount].
  exact (MulScalar_amount _ _ _ _ _ _ Hv Hk).
Qed.

Lemma MulScalar_units_witness :
  exists r h', Types.MulScalar (Some 0%nat) (Some 3%nat) sample = (Ret r, h')
               /\ amount h' r Eth.ethDefinition (-7 * 7).
Proof.
  apply (MulScalar_units sample (Some 0%nat) (Some 3%nat) Eth.ethDefinition (-7) 7).
  - now apply (sample_amount 0 0).
  - exists 3%nat. now split.
Defined.

(** X3: adding [b] and then subtracting [b] gives back the units of [a]
    exactly, in a new amount; [a] and [b] are still what they were. *)
Theorem Add_then_Sub h v o D D' a b :
  amount h v D a -> amount h o D' b -> CoinName D = CoinName D' ->
  exists r1 h1 r2 h2,
    Types.Add v o h = (Ret r1, h1) /\
    Types.Sub r1 o h1 = (Ret r2, h2) /\
    amount h2 r2 D a /\ amount h2 v D a /\ amount h2 o D' b.
Proof.
  intros Hv Ho Hs.
  pose proof (with_result_extends h D (a + b)) as E1.
  pose proof (with_result_amount h D (a + b)) as A1.
  pose proof (extends_amount _ _ _ _ _ E1 Ho) as Ho1.
  set (h1 := with_result h D (a + b)) in *.
  pose proof (with_result_extends h1 D (a + b - b)) as E2.
  eexists _, _, _, _. split; [exact (Add_amount _ _ _ _ _ _ _ Hv Ho Hs)|].
  split; [exact (Sub_amount _ _ _ _ _ _ _ A1 Ho1 Hs)|].
  split; [|split].
  - replace a with (a + b - b) at 2 by lia. apply with_result_amount.
  - eapply extends_amount; [exact E2|]. eapply extends_amount; eassumption.
  - eapply extends_amount; eassumption.
Qed.

Lemma Add_then_Sub_witness :
  exists r1 h1 r2 h2,
    Types.Add (Some 0%nat) (Some 1%nat) sample = (Ret r1, h1) /\
    Types.Sub r1 (Some 1%nat) h1 = (Ret r2, h2) /\
    amount h2 r2 Eth.ethDefinition (-7) /\
    amount h2 (Some 0%nat) Eth.ethDefinition (-7) /\
    amount h2 (Some 1%nat) Eth.ethDefinition 2.
Proof.
  apply (Add_then_Sub sample (Some 0%nat) (Some 1%nat)
           Eth.ethDefinition Eth.ethDefinition (-7) 2).
  - now apply (sample_amount 0 0).
  - now apply (sample_amount 1 1).
  - reflexivity.
Defined.

(** X4: only the coin names are compared. Two amounts whose definitions
    share a name are added as raw units even when their unit exponents
    differ, and each sum is bound to the definition of its own receiver:
    [a.Add(b)] and [b.Add(a)] have the same units and, in general,
    different definitions. *)
Theorem Add_by_name_only h v o D D' a b :
  amount h v D a -> amount h o D' b -> CoinName D = CoinName D' ->
  Types.Same v o h = (Ret true, h) /\ Types.Same o v h = (Ret true, h) /\
  exists r h' r' h'',
    Types.Add v o h = (Ret r, h') /\ Types.Add o v h = (Ret r', h'') /\
    Types.units_of h' r = Some (a + b) /\ Types.units_of h'' r' = Some (a + b) /\
    Types.def_of h' r = Some D /\ Types.def_of h'' r' = Some D'.
Proof.
  intros Hv Ho Hs.
  split; [rewrite (Same_amount _ _ _ _ _ _ _ Hv Ho), Hs; now rewrite String.eqb_refl|].
  split; [rewrite (Same_amount _ _ _ _ _ _ _ Ho Hv), Hs; now rewrite String.eqb_refl|].
  eexists _, _, _, _.
  split; [exact (Add_amount _ _ _ _ _ _ _ Hv Ho Hs)|].
  split; [exact (Add_amount _ _ _ _ _ _ _ Ho Hv (eq_sym Hs))|].
  split; [exact (units_of_amount _ _ _ _ (with_result_amount h D _))|].
  split; [rewrite (Z.add_comm a b);
          exact (units_of_amount _ _ _ _ (with_result_amount h D' _))|].
  split; [exact (def_of_amount _ _ _ _ (with_result_amount h D _))|].
  exact (def_of_amount _ _ _ _ (with_result_amount h D' _)).
Qed.

Lemma Add_by_name_only_witness :
  exists r h' r' h'',
    Types.Add (Some 0%nat) (Some 1%nat) two_exponents = (Ret r, h') /\
    Types.Add (Some 1%nat) (Some 0%nat) two_exponents = (Ret r', h'') /\
    Types.units_of h' r = Some (5 + 3) /\ Types.units_of h'' r' = Some (5 + 3) /\
    Types.def_of h' r = Some (mkDef "ETH" 18) /\
    Types.def_of h'' r' = Some (mkDef "ETH" 6).
Proof.
  apply (Add_by_name_only two_exponents (Some 0%nat) (Some 1%nat)
           (mkDef "ETH" 18) (mkDef "ETH" 6) 5 3).
  - exists (Some 0%nat). split; [exists 0%nat|exists 0%nat]; now split.
  - exists (Some 1%nat). split; [exists 1%nat|exists 1%nat]; now split.
  - reflexivity.
Defined.

(** X5: dividing by a nonzero scalar and multiplying by it again never
    gives more than the original units, and loses less than the size of
    the scalar: with [m] the units of [a.DivScalar(k).MulScalar(k)],
    [0 <= a - m < |k|]. *)
Theorem DivScalar_then_MulScalar h v s D a k :
  amount h v D a -> int_at h s k -> k <> 0 ->
  exists r1 h1 r2 h2 m,
    Types.DivScalar v s h = (Ret r1, h1) /\
    Types.MulScalar r1 s h1 = (Ret r2, h2) /\
    amount h2 r2 D m /\ 0 <= a - m < Z.abs k.
Proof.
  intros Hv Hk Hk0.
  pose proof (with_result_amount h D (Big.div a k)) as A1.
  assert (Hk1 : int_at (with_result h D (Big.div a k)) s k).
  { destruct Hk as (i & -> & Hi). exists i. split; [reflexivity|].
    now apply lookup_snoc_old. }
  eexists _, _, _, _, _.
  split; [exact (DivScalar_amount _ _ _ _ _ _ Hv Hk Hk0)|].
  split; [exact (MulScalar_amount _ _ _ _ _ _ A1 Hk1)|].
  split; [apply with_result_amount|].
  pose proof (div_euclid a k Hk0). lia.
Qed.

Lemma DivScalar_then_MulScalar_witness :
  exists r1 h1 r2 h2 m,
    Types.DivScalar (Some 0%nat) (Some 1%nat) sample = (Ret r1, h1) /\
    Types.MulScalar r1 (Some 1%nat) h1 = (Ret r2, h2) /\
    amount h2 r2 Eth.ethDefinition m /\ 0 <= -7 - m < Z.abs 2.
Proof.
  apply (DivScalar_then_MulScalar sample (Some 0%nat) (Some 1%nat)
           Eth.ethDefinition (-7) 2).
  - now apply (sample_amount 0 0).
  - exists 1%nat. now split.
  - lia.
Defined.

(** ** Nil operands *)

(** X6: a nil operand is a nil dereference. With a nil [other] the four
    binary operations panic while comparing the coin names, before anything
    is allocated; with a nil scalar [MulScalar] and [DivScalar] panic when
    the scalar is read. *)
Theorem nil_operand_panics h v D a :
  amount h v D a ->
  Types.Add v None h = (Panic PanicNilDeref, h) /\
  Types.Sub v None h = (Panic PanicNilDeref, h) /\
  Types.Mul v None h = (Panic PanicNilDeref, h) /\
  Types.Div v None h = (Panic PanicNilDeref, h) /\
  fst (Types.MulScalar v None h) = Panic PanicNilDeref /\
  fst (Types.DivScalar v None h) = Panic PanicNilDeref.
Proof.
  intros (p & Pv & Ip).
  unfold Types.Add, Types.Sub, Types.Mul, Types.Div, Types.MulScalar,
    Types.DivScalar, Types.Same, Types.CoinName.
  repeat split; run_op Pv Pv; reflexivity.
Qed.

Lemma nil_operand_panics_witness :
  Types.Add (Some 0%nat) None sample = (Panic PanicNilDeref, sample) /\
  Types.Sub (Some 0%nat) None sample = (Panic PanicNilDeref, sample) /\
  Types.Mul (Some 0%nat) None sample = (Panic PanicNilDeref, sample) /\
  Types.Div (Some 0%nat) None sample = (Panic PanicNilDeref, sample) /\
  fst (Types.MulScalar (Some 0%nat) None sample) = Panic PanicNilDeref /\
  fst (Types.DivScalar (Some 0%nat) None sample) = Panic PanicNilDeref.
Proof.
  apply (nil_operand_panics sample (Some 0%nat) Eth.ethDefinition (-7)).
  now apply (sample_amount 0 0).
Defined.

(** ** Sharing *)

(** X7: [NewCoinValue] does not copy the number it is given. A later
    write through the pointer that was passed changes the units of the
    amount. *)
Theorem NewCoinValue_shares_pointer D h p u z :
  int_at h p u ->
  exists v h1 h2,
    Types.NewCoinValue D p h = (Ret v, h1) /\
    Types.units_of h1 v = Some u /\
    Big.store p z h1 = (Ret tt, h2) /\
    Types.units_of h2 v = Some z.
Proof.
  intros (k & -> & Hk).
  pose proof (lookup_lt_Some _ _ _ Hk) as Lk.
  eexists _, _, _. split; [reflexivity|].
  assert (U : forall i x,
             i !! k = Some x ->
             Types.units_of (mkHeap i (coins h ++ [mkCoin D (Some k)]))
               (Some (length (coins h))) = Some x).
  { intros i x Hi. apply (units_of_amount _ _ D). exists (Some k). split.
    - exists (length (coins h)). split; [reflexivity|]. apply lookup_snoc_new.
    - exists k. now split. }
  split; [now apply U|].
  unfold Big.store. cbn [ints coins].
  destruct (decide (k < length (ints h))%nat) as [_|N]; [|contradiction].
  split; [reflexivity|]. apply U. now apply list_lookup_insert_eq.
Qed.

Lemma NewCoinValue_shares_pointer_witness :
  exists v h1 h2,
    Types.NewCoinValue Eth.ethDefinition (Some 3%nat) sample = (Ret v, h1) /\
    Types.units_of h1 v = Some 7 /\
    Big.store (Some 3%nat) 1000 h1 = (Ret tt, h2) /\
    Types.units_of h2 v = Some 1000.
Proof.
  apply (NewCoinValue_shares_pointer Eth.ethDefinition sample (Some 3%nat) 7 1000).
  exists 3%nat. now split.
Defined.

(** X8: the result of an operation shares nothing with the store it was
    computed from. After any of the six operations has returned, a write
    to any number that existed before the call leaves the units of the
    result as they are. *)
Theorem result_is_unshared h v x r h' p u z :
  Types.Add v x h = (Ret r, h') \/ Types.Sub v x h = (Ret r, h') \/
  Types.Mul v x h = (Ret r, h') \/ Types.Div v x h = (Ret r, h') \/
  Types.MulScalar v x h = (Ret r, h') \/ Types.DivScalar v x h = (Ret r, h') ->
  int_at h p u ->
  exists h2 q,
    Big.store p z h' = (Ret tt, h2) /\
    Types.units_of h' r = Some q /\ Types.units_of h2 r = Some q.
Proof.
  intros H (k & -> & Hk).
  assert (F : fresh_result h v r h').
  { destruct H as [H|[H|[H|[H|[H|H]]]]];
      eauto using Add_fresh, Sub_fresh, Mul_fresh, Div_fresh,
                  MulScalar_fresh, DivScalar_fresh. }
  destruct F as (cv & q & _ & -> & ->).
  pose proof (lookup_lt_Some _ _ _ Hk) as Lk.
  eexists _, q. split; [|split].
  - unfold Big.store. cbn [ints coins with_result].
    destruct (decide _) as [_|N]; [reflexivity|].
    destruct N. rewrite length_app. lia.
  - exact (units_of_amount _ _ _ _ (with_result_amount h (def cv) q)).
  - apply (units_of_amount _ _ (def cv)).
    exists (Some (length (ints h))). split.
    + exists (length (coins h)). split; [reflexivity|]. apply lookup_snoc_new.
    + exists (length (ints h)). split; [reflexivity|]. cbn [ints].
      rewrite list_lookup_insert_ne by lia. apply lookup_snoc_new.
Qed.

Lemma result_is_unshared_witness :
  exists h2 q,
    Big.store (Some 0%nat) 1000 (with_result sample Eth.ethDefinition (-5))
    = (Ret tt, h2) /\
    Types.units_of (with_result sample Eth.ethDefinition (-5)) (Some 5%nat) = Some q /\
    Types.units_of h2 (Some 5%nat) = Some q.
Proof.
  apply (result_is_unshared sample (Some 0%nat) (Some 1%nat) (Some 5%nat)
           (with_result sample Eth.ethDefinition (-5)) (Some 0%nat) (-7) 1000).
  - left. reflexivity.
  - exists 0%nat. now split.
Defined.

(** ** Nothing that exists is ever written *)

Lemma Big_load_same h p : snd (Big.load p h) = h.
Proof. unfold Big.load. destruct p as [l|]; [destruct (ints h !! l)|]; reflexivity. Qed.

Lemma Types_load_same h v : snd (Types.load v h) = h.
Proof. unfold Types.load. destruct v as [l|]; [destruct (coins h !! l)|]; reflexivity. Qed.

Lemma Units_same h v : snd (Types.Units v h) = h.
Proof.
  unfold Types.Units, bind, ret. pose proof (Types_load_same h v).
  destruct (Types.load v h) as [[cv|] h1]; cbn [snd] in *; assumption.
Qed.

Lemma CoinName_same h v : snd (Types.CoinName v h) = h.
Proof.
  unfold Types.CoinName, bind, ret. pose proof (Types_load_same h v).
  destruct (Types.load v h) as [[cv|] h1]; cbn [snd] in *; assumption.
Qed.

Lemma Same_same h v o : snd (Types.Same v o h) = h.
Proof.
  unfold Types.Same, bind, ret. pose proof (CoinName_same h v).
  destruct (Types.CoinName v h) as [[a|] h1]; cbn [snd] in *; subst; [|reflexivity].
  pose proof (CoinName_same h o).
  destruct (Types.CoinName o h) as [[b|] h1]; cbn [snd] in *; assumption.
Qed.

Lemma ScaledValue_same h v exp : snd (Types.ScaledValue v exp h) = h.
Proof.
  unfold Types.ScaledValue, Decimal.NewFromBigInt, bind, ret, lift.
  pose proof (Types_load_same h v).
  destruct (Types.load v h) as [[cv|] h1]; cbn [snd] in *; subst; [|reflexivity].
  pose proof (Big_load_same h (value cv)).
  destruct (Big.load (value cv) h) as [[z|] h1]; cbn [snd] in *; assumption.
Qed.

Lemma Coins_same h v : snd (Types.Coins v h) = h.
Proof.
  unfold Types.Coins, Decimal.NewFromBigInt, bind, ret, lift.
  pose proof (Types_load_same h v).
  destruct (Types.load v h) as [[cv|] h1]; cbn [snd] in *; subst; [|reflexivity].
  pose proof (Big_load_same h (value cv)).
  destruct (Big.load (value cv) h) as [[z|] h1]; cbn [snd] in *; assumption.
Qed.

(** X9: the accessors only read. Whatever [Units], [CoinName], [Same],
    [Coins] and [ScaledValue] are called on, and whether they return or
    panic, the store afterwards is the store before. *)
Theorem accessors_read_only h v o exp :
  snd (Types.Units v h) = h /\
  snd (Types.CoinName v h) = h /\
  snd (Types.Same v o h) = h /\
  snd (Types.Coins v h) = h /\
  snd (Types.ScaledValue v exp h) = h.
Proof.
  repeat split;
    auto using Units_same, CoinName_same, Same_same, Coins_same, ScaledValue_same.
Qed.

Ltac new_only :=
  intros h c x y; unfold bind, ret, throw;
  repeat match goal with
         | |- context [Big.load ?p ?hh] =>
             let E := fresh "E" in
             pose proof (Big_load_same hh p) as E;
             destruct (Big.load p hh) as [[?|?] ?]; cbn [snd] in E; subst;
             [|eexists; reflexivity]
         end;
  try match goal with
      | |- context [if ?t then _ else _] => destruct t; [eexists; reflexivity|]
      end;
  rewrite store_new; eexists; reflexivity.

Lemma Big_Add_new_only : writes_new_only Big.Add.
Proof. unfold Big.Add. new_only. Qed.

Lemma Big_Sub_new_only : writes_new_only Big.Sub.
Proof. unfold Big.Sub. new_only. Qed.

Lemma Big_Mul_new_only : writes_new_only Big.Mul.
Proof. unfold Big.Mul. new_only. Qed.

Lemma Big_Div_new_only : writes_new_only Big.Div.
Proof. unfold Big.Div. new_only. Qed.

Lemma extends_snoc_int h z : extends h (mkHeap (ints h ++ [z]) (coins h)).
Proof. split; [apply prefix_snoc|reflexivity]. Qed.

Lemma tail_extends h v (arg : CoinValue -> M ptr)
      (op : ptr -> ptr -> ptr -> M ptr) :
  writes_new_only op ->
  (forall cv hh, snd (arg cv hh) = hh) ->
  extends h
    (snd ((do cv <- Types.load v ;
           do z <- Big.new_Int ;
           do u <- arg cv ;
           do s <- op z (value cv) u ;
           Types.new_CoinValue (mkCoin (def cv) s)) h)).
Proof.
  intros Hop Harg. unfold bind at 1.
  pose proof (Types_load_same h v) as E.
  destruct (Types.load v h) as [[cv|] h1]; cbn [snd] in E; subst;
    [|split; reflexivity].
  unfold bind at 1. unfold Big.new_Int, Big.alloc. unfold bind at 1.
  pose proof (Harg cv (mkHeap (ints h ++ [0]) (coins h))) as E.
  destruct (arg cv _) as [[u|] h2]; cbn [snd] in E; subst;
    [|apply extends_snoc_int].
  unfold bind at 1.
  destruct (Hop h (coins h) (value cv) u) as [z E].
  destruct (op _ _ _ _) as [[s|] h3]; cbn [snd] in E; subst;
    [|apply extends_snoc_int].
  unfold Types.new_CoinValue. cbn [snd ints coins].
  split; apply prefix_snoc.
Qed.

Ltac binop_extends :=
  unfold bind at 1;
  lazymatch goal with
  | |- context [Types.Same ?v ?o ?h] =>
      let E := fresh "E" in
      pose proof (Same_same h v o) as E;
      destruct (Types.Same v o h) as [[[|]|] ?]; cbn [snd] in E; subst;
      [ cbn [negb]
      | cbv beta iota delta [negb throw snd]; split; reflexivity
      | split; reflexivity ]
  end.

(** X10: no operation writes to anything that was allocated before it
    was called. Whether [Add], [Sub], [Mul], [Div], [MulScalar] or
    [DivScalar] returns or panics, on whatever operands, the store
    afterwards is the store before with at most new cells appended. *)
Theorem operations_only_allocate h v x :
  extends h (snd (Types.Add v x h)) /\
  extends h (snd (Types.Sub v x h)) /\
  extends h (snd (Types.Mul v x h)) /\
  extends h (snd (Types.Div v x h)) /\
  extends h (snd (Types.MulScalar v x h)) /\
  extends h (snd (Types.DivScalar v x h)).
Proof.
  split; [|split; [|split; [|split; [|split]]]].
  - unfold Types.Add. binop_extends.
    exact (tail_extends h v (fun _ => Types.Units x) _ Big_Add_new_only
             (fun _ hh => Units_same hh x)).
  - unfold Types.Sub. binop_extends.
    exact (tail_extends h v (fun _ => Types.Units x) _ Big_Sub_new_only
             (fun _ hh => Units_same hh x)).
  - unfold Types.Mul. binop_extends.
    exact (tail_extends h v (fun _ => Types.Units x) _ Big_Mul_new_only
             (fun _ hh => Units_same hh x)).
  - unfold Types.Div. binop_extends.
    exact (tail_extends h v (fun _ => Types.Units x) _ Big_Div_new_only
             (fun _ hh => Units_same hh x)).
  - exact (tail_extends h v (fun _ => ret x) _ Big_Mul_new_only (fun _ _ => eq_refl)).
  - exact (tail_extends h v (fun _ => ret x) _ Big_Div_new_only (fun _ _ => eq_refl)).
Qed.

Lemma from_decimal_panic (D : ValueDefinition) (value : Decimal.Decimal)
      (k : ValueDefinition -> Z) (p : panic) (h : heap) :
  Decimal.Mul value (Decimal.New 1 (k D)) = Panic p ->
  (do cv <- Types.NewCoinValue D None ;
   do c <- Types.load cv ;
   do d <- lift (Decimal.Mul value (Decimal.New 1 (k (def c)))) ;
   do p <- Decimal.BigInt d ;
   do _ <- Types.set_value cv p ;
   ret cv) h
  = (Panic p, with_result h D 0).
Proof.
  intros HM.
  unfold Types.NewCoinValue, Big.NewInt, Big.alloc, Types.new_CoinValue,
    Types.load, lift, bind, ret.
  cbn [ints coins]. rewrite lookup_snoc_new. cbn [def]. now rewrite HM.
Qed.

Lemma extends_with_decimal h D z : extends h (with_decimal h D z).
Proof.
  split; cbn [ints coins with_decimal]; [|apply prefix_snoc].
  rewrite <- app_assoc. now exists ([0] ++ [z]).
Qed.

Lemma from_decimal_extends (D : ValueDefinition) (value : Decimal.Decimal)
      (k : ValueDefinition -> Z) (h : heap) :
  let run := (do cv <- Types.NewCoinValue D None ;
              do c <- Types.load cv ;
              do d <- lift (Decimal.Mul value (Decimal.New 1 (k (def c)))) ;
              do p <- Decimal.BigInt d ;
              do _ <- Types.set_value cv p ;
              ret cv) h in
  extends h (snd run) /\
  (forall r, fst run = Ret r -> r = result_ptr h).
Proof.
  cbv zeta.
  destruct (Decimal.Mul value (Decimal.New 1 (k D))) as [d'|p] eqn:HM.
  - rewrite (from_decimal_run D value k d' h HM). cbn [fst snd].
    split; [apply extends_with_decimal|]. intros r E. now inversion E.
  - rewrite (from_decimal_panic D value k p h HM). cbn [fst snd].
    split; [apply with_result_extends|]. discriminate.
Qed.

(** X11: the constructors only allocate. [NewCoinValue] always returns,
    without reading the number it is given; [NewCoinValueFromCoins] and
    [NewCoinValueFromScaled], whether they return or panic, leave every
    cell that existed untouched; and whatever a constructor returns is a
    struct that did not exist before. *)
Theorem constructors_only_allocate D p d scaleExp h :
  (exists r h', Types.NewCoinValue D p h = (Ret r, h')) /\
  extends h (snd (Types.NewCoinValue D p h)) /\
  extends h (snd (Types.NewCoinValueFromCoins D d h)) /\
  extends h (snd (Types.NewCoinValueFromScaled D d scaleExp h)) /\
  (forall r,
      fst (Types.NewCoinValue D p h) = Ret r \/
      fst (Types.NewCoinValueFromCoins D d h) = Ret r \/
      fst (Types.NewCoinValueFromScaled D d scaleExp h) = Ret r ->
      fst (Types.load r h) = Panic PanicNilDeref).
Proof.
  pose proof (from_decimal_extends D d UnitExp h) as [E1 F1].
  pose proof (from_decimal_extends D d
                (fun D => Decimal.wrap32 (UnitExp D - scaleExp)) h) as [E2 F2].
  assert (N : fst (Types.load (result_ptr h) h) = Panic PanicNilDeref).
  { unfold Types.load, result_ptr.
    now rewrite (proj2 (lookup_ge_None (coins h) (length (coins h)))). }
  split; [|split; [|split; [|split]]].
  - destruct p; eexists _, _; reflexivity.
  - destruct p; [|exact (with_result_extends h D 0)].
    split; cbn; [reflexivity|apply prefix_snoc].
  - exact E1.
  - exact E2.
  - intros r [H|[H|H]].
    + destruct p; inversion H; exact N.
    + now rewrite (F1 r H).
    + now rewrite (F2 r H).
Qed.

Lemma constructors_only_allocate_witness :
  fst (Types.load (Some 5%nat) sample) = Panic PanicNilDeref.
Proof.
  apply (proj2 (proj2 (proj2 (proj2
           (constructors_only_allocate Eth.ethDefinition (Some 3%nat)
              (Decimal.mkDec 15 (-1)) 9 sample)))) (Some 5%nat)).
  left. reflexivity.
Defined.

(** ** Decimals in and out *)

Section DecimalRoundTrips.

Import Decimal Rounding.

Lemma Mul_pow10 (d : Decimal) (k : Z) :
  MinInt32 <= dexp d + k <= MaxInt32 ->
  Mul d (New 1 k) = Ret (mkDec (dvalue d * 1) (dexp d + k)).
Proof.
  intros H. unfold Mul, New. cbn [dvalue dexp]. now rewrite (in_int32 _ H).
Qed.

(** A constructor on a decimal with no digits below the smallest unit. *)
Lemma from_decimal_exact (D : ValueDefinition) (d : Decimal)
      (k : ValueDefinition -> Z) (h : heap) :
  0 <= dexp d + k D <= MaxInt32 ->
  (do cv <- Types.NewCoinValue D None ;
   do c <- Types.load cv ;
   do d <- lift (Mul d (New 1 (k (def c)))) ;
   do p <- BigInt d ;
   do _ <- Types.set_value cv p ;
   ret cv) h
  = (Ret (result_ptr h), with_decimal h D (dvalue d * 10 ^ (dexp d + k D))).
Proof.
  intros H.
  rewrite (from_decimal_run D d k _ h (Mul_pow10 d (k D) ltac:(unfold MinInt32; lia))).
  rewrite rescale_0_value, (proj2 (Z.leb_le 0 _)) by lia.
  now rewrite Z.mul_1_r.
Qed.

Lemma to_Q_int_pow (u k e : Z) :
  0 <= k -> to_Q (mkDec (u * 10 ^ k) e) == inject_Z u * 10 ^ (k + e).
Proof.
  intros Hk. unfold to_Q. cbn [dvalue dexp].
  rewrite inject_Z_mult, (Zpower_Qpower 10 k Hk).
  change (inject_Z 10) with (10 # 1)%Q.
  rewrite (Qpower_plus 10 k e ten_nonzero). ring.
Qed.

(** Within the unit exponent nothing is rounded. *)
Lemma ScaledValue_exact h v D u s :
  amount h v D u ->
  0 <= UnitExp D <= MaxInt32 -> MinInt32 <= s <= UnitExp D ->
  UnitExp D - s <= MaxInt32 ->
  Types.ScaledValue v s h
  = (Ret (mkDec (u * 10 ^ (UnitExp D - s)) (- UnitExp D)), h).
Proof.
  intros Hv HU Hs He.
  rewrite (ScaledValue_amount _ _ _ _ _ Hv).
  rewrite DivRound_pow10 by (unfold MinInt32, MaxInt32 in *; lia).
  unfold div_pow10_round. now rewrite (proj2 (Z.leb_le 0 _)) by lia.
Qed.

Lemma Coins_exact h v D u :
  amount h v D u -> 0 <= UnitExp D <= MaxInt32 ->
  Types.Coins v h = (Ret (mkDec u (- UnitExp D)), h).
Proof.
  intros Hv HU. pose proof Hv as (p & Pv & _).
  rewrite (Coins_ScaledValue _ _ _ Pv). cbn [def].
  rewrite (ScaledValue_exact h v D u (UnitExp D))
    by (try assumption; unfold MinInt32, MaxInt32 in *; lia).
  now rewrite Z.sub_diag, Z.pow_0_r, Z.mul_1_r.
Qed.

Lemma Cmp_rescaled (v x U : Z) :
  0 <= x + U -> Cmp (mkDec (v * 10 ^ (x + U)) (- U)) (mkDec v x) = 0.
Proof.
  intros H. unfold Cmp, RescalePair, rescale. cbn [dvalue dexp].
  rewrite !Z.gtb_ltb.
  destruct (Z.eqb_spec (- U) x) as [E|N].
  - replace (x + U) with 0 by lia. rewrite Z.pow_0_r, Z.mul_1_r.
    now rewrite Z.compare_refl.
  - repeat match goal with
           | |- context [?a <? ?b] =>
               first [ rewrite (proj2 (Z.ltb_lt a b)) by lia
                     | rewrite (proj2 (Z.ltb_ge a b)) by lia ]
           | |- context [?a =? ?b] => rewrite (proj2 (Z.eqb_neq a b)) by lia
           end.
    cbn [dvalue].
    replace (Z.abs (- U - x)) with (x + U) by lia.
    now rewrite Z.compare_refl.
Qed.

Lemma div_pow10_round_opp (u exp U : Z) :
  div_pow10_round (- u) exp U = - div_pow10_round u exp U.
Proof.
  unfold div_pow10_round.
  destruct (Z.leb_spec 0 (U - exp)) as [H|H]; [lia|].
  pose proof (pow10_pos (exp - U) ltac:(lia)) as HB.
  set (B := 10 ^ (exp - U)) in *. cbv zeta.
  rewrite Z.rem_opp_l, Z.quot_opp_l, Z.abs_opp by lia.
  destruct (Z.ltb_spec (2 * Z.abs (Z.rem u B)) B) as [L|G]; [reflexivity|].
  assert (u <> 0) by (intros ->; rewrite Z.rem_0_l in G; lia).
  destruct (Z.ltb_spec (- u) 0), (Z.ltb_spec u 0); lia.
Qed.

End DecimalRoundTrips.

Lemma FromCoins_Coins_numbers D d h :
  0 <= UnitExp D <= Decimal.MaxInt32 ->
  0 <= Decimal.dexp d + UnitExp D <= Decimal.MaxInt32 ->
  exists v h' c,
    Types.NewCoinValueFromCoins D d h = (Ret v, h') /\
    Types.Coins v h' = (Ret c, h') /\
    Decimal.Cmp c d = 0 /\
    Rounding.to_Q c == Rounding.to_Q d.
Proof.
  intros HU Hx.
  eexists _, _, _. split; [exact (from_decimal_exact D d UnitExp h Hx)|].
  split; [exact (Coins_exact _ _ _ _ (with_decimal_amount h D _) HU)|].
  split; [destruct d as [dv dx]; cbn [Decimal.dvalue Decimal.dexp] in *;
          apply Cmp_rescaled; lia|].
  rewrite to_Q_int_pow by lia.
  replace (Decimal.dexp d + UnitExp D + - UnitExp D) with (Decimal.dexp d) by lia.
  reflexivity.
Qed.


(** X12: a decimal with no digits below the smallest unit survives the
    round trip through [NewCoinValueFromCoins] and [Coins]: what comes
    back compares equal to what went in ([Cmp] is 0) and stands for the
    same number, for either sign. *)
Theorem FromCoins_Coins_round_trip D d h :
  0 <= UnitExp D <= Decimal.MaxInt32 ->
  0 <= Decimal.dexp d + UnitExp D <= Decimal.MaxInt32 ->
  exists v h' c,
    Types.NewCoinValueFromCoins D d h = (Ret v, h') /\
    Types.Coins v h' = (Ret c, h') /\
    Decimal.Cmp c d = 0 /\
    Rounding.to_Q c == Rounding.to_Q d.
Proof. exact (FromCoins_Coins_numbers D d h). Qed.

Lemma FromCoins_Coins_round_trip_witness :
  exists v h' c,
    Types.NewCoinValueFromCoins Eth.ethDefinition (Decimal.mkDec (-15) (-1)) empty_heap
    = (Ret v, h') /\
    Types.Coins v h' = (Ret c, h') /\
    Decimal.Cmp c (Decimal.mkDec (-15) (-1)) = 0 /\
    Rounding.to_Q c == Rounding.to_Q (Decimal.mkDec (-15) (-1)).
Proof.
  apply (FromCoins_Coins_round_trip Eth.ethDefinition (Decimal.mkDec (-15) (-1))
           empty_heap); vm_compute; split; discriminate.
Defined.

(** X13: for a scale exponent that does not exceed the unit exponent,
    [ScaledValue] does not round: for [u] units it is exactly
    [u / 10^scaleExp], held as [u * 10^(U - scaleExp)] at exponent [-U];
    [Coins] is exactly [u / 10^U]. *)
Theorem ScaledValue_exact_within_unit h v D u scaleExp :
  amount h v D u ->
  0 <= UnitExp D <= Decimal.MaxInt32 ->
  Decimal.MinInt32 <= scaleExp <= UnitExp D ->
  UnitExp D - scaleExp <= Decimal.MaxInt32 ->
  exists c c',
    Types.ScaledValue v scaleExp h = (Ret c, h) /\
    c = Decimal.mkDec (u * 10 ^ (UnitExp D - scaleExp)) (- UnitExp D) /\
    Rounding.to_Q c == inject_Z u / 10 ^ scaleExp /\
    Types.Coins v h = (Ret c', h) /\
    c' = Decimal.mkDec u (- UnitExp D) /\
    Rounding.to_Q c' == inject_Z u / 10 ^ UnitExp D.
Proof.
  intros Hv HU Hs He. eexists _, _.
  split; [exact (ScaledValue_exact h v D u scaleExp Hv HU Hs He)|].
  split; [reflexivity|]. split.
  - rewrite to_Q_int_pow by lia.
    replace (UnitExp D - scaleExp + - UnitExp D) with (- scaleExp) by lia.
    now rewrite Qpower_opp.
  - split; [exact (Coins_exact h v D u Hv HU)|]. split; [reflexivity|].
    unfold Rounding.to_Q. cbn [Decimal.dvalue Decimal.dexp].
    now rewrite Qpower_opp.
Qed.

Lemma ScaledValue_exact_within_unit_witness :
  exists c c',
    Types.ScaledValue (Some 4%nat) 9 sample = (Ret c, sample) /\
    c = Decimal.mkDec (7 * 10 ^ (UnitExp Eth.ethDefinition - 9))
          (- UnitExp Eth.ethDefinition) /\
    Rounding.to_Q c == inject_Z 7 / 10 ^ 9 /\
    Types.Coins (Some 4%nat) sample = (Ret c', sample) /\
    c' = Decimal.mkDec 7 (- UnitExp Eth.ethDefinition) /\
    Rounding.to_Q c' == inject_Z 7 / 10 ^ UnitExp Eth.ethDefinition.
Proof.
  apply (ScaledValue_exact_within_unit sample (Some 4%nat) Eth.ethDefinition 7 9).
  - now apply (sample_amount 4 3).
  - vm_compute. split; discriminate.
  - vm_compute. split; discriminate.
  - vm_compute. discriminate.
Defined.

Lemma FromScaled_ScaledValue_numbers D d scaleExp h :
  0 <= UnitExp D <= Decimal.MaxInt32 ->
  Decimal.MinInt32 <= scaleExp <= UnitExp D ->
  UnitExp D - scaleExp <= Decimal.MaxInt32 ->
  0 <= Decimal.dexp d + (UnitExp D - scaleExp) <= Decimal.MaxInt32 ->
  exists v h' c,
    Types.NewCoinValueFromScaled D d scaleExp h = (Ret v, h') /\
    Types.ScaledValue v scaleExp h' = (Ret c, h') /\
    Rounding.to_Q c == Rounding.to_Q d * 10 ^ (UnitExp D - 2 * scaleExp) /\
    (UnitExp D = 2 * scaleExp -> Rounding.to_Q c == Rounding.to_Q d).
Proof.
  intros HU Hs He Hx.
  assert (W : Decimal.wrap32 (UnitExp D - scaleExp) = UnitExp D - scaleExp)
    by (apply wrap32_id; unfold Decimal.MinInt32, Decimal.MaxInt32 in *; lia).
  pose proof (from_decimal_exact D d
                (fun D => Decimal.wrap32 (UnitExp D - scaleExp)) h) as R.
  cbv beta in R. rewrite W in R. specialize (R Hx).
  assert (E : forall c : Decimal.Decimal,
             c = Decimal.mkDec
                   (Decimal.dvalue d * 10 ^ (Decimal.dexp d + (UnitExp D - scaleExp))
                    * 10 ^ (UnitExp D - scaleExp)) (- UnitExp D) ->
             Rounding.to_Q c == Rounding.to_Q d * 10 ^ (UnitExp D - 2 * scaleExp)).
  { intros c ->. rewrite <- Z.mul_assoc, <- Z.pow_add_r by lia.
    rewrite to_Q_int_pow by lia. rewrite to_Q_scale.
    replace (Decimal.dexp d + (UnitExp D - scaleExp) + (UnitExp D - scaleExp)
             + - UnitExp D)
      with (Decimal.dexp d + (UnitExp D - 2 * scaleExp)) by lia.
    reflexivity. }
  eexists _, _, _. split; [exact R|].
  split; [exact (ScaledValue_exact _ _ _ _ _ (with_decimal_amount h D _) HU Hs He)|].
  split; [now apply E|].
  intros H2. rewrite (E _ eq_refl).
  replace (UnitExp D - 2 * scaleExp) with 0 by lia.
  change (10 ^ 0)%Q with 1%Q. ring.
Qed.


(** X14: [NewCoinValueFromScaled] multiplies by [10^(U - scaleExp)] and
    [ScaledValue] divides by [10^scaleExp], so a decimal [d] that goes in
    at a scale comes back from the same scale as [d * 10^(U - 2*scaleExp)]:
    the round trip gives [d] back when the scale exponent is half the unit
    exponent. *)
Theorem FromScaled_ScaledValue D d scaleExp h :
  0 <= UnitExp D <= Decimal.MaxInt32 ->
  Decimal.MinInt32 <= scaleExp <= UnitExp D ->
  UnitExp D - scaleExp <= Decimal.MaxInt32 ->
  0 <= Decimal.dexp d + (UnitExp D - scaleExp) <= Decimal.MaxInt32 ->
  exists v h' c,
    Types.NewCoinValueFromScaled D d scaleExp h = (Ret v, h') /\
    Types.ScaledValue v scaleExp h' = (Ret c, h') /\
    Rounding.to_Q c == Rounding.to_Q d * 10 ^ (UnitExp D - 2 * scaleExp) /\
    (UnitExp D = 2 * scaleExp -> Rounding.to_Q c == Rounding.to_Q d).
Proof. exact (FromScaled_ScaledValue_numbers D d scaleExp h). Qed.

Lemma FromScaled_ScaledValue_witness :
  exists v h' c,
    Types.NewCoinValueFromScaled Eth.ethDefinition (Decimal.mkDec 15 (-1)) 3 empty_heap
    = (Ret v, h') /\
    Types.ScaledValue v 3 h' = (Ret c, h') /\
    Rounding.to_Q c
    == Rounding.to_Q (Decimal.mkDec 15 (-1)) * 10 ^ (UnitExp Eth.ethDefinition - 2 * 3) /\
    (UnitExp Eth.ethDefinition = 2 * 3 ->
     Rounding.to_Q c == Rounding.to_Q (Decimal.mkDec 15 (-1))).
Proof.
  apply (FromScaled_ScaledValue Eth.ethDefinition (Decimal.mkDec 15 (-1)) 3 empty_heap);
    vm_compute; try split; discriminate.
Defined.

(** X15: rounding is symmetric about zero. If [ScaledValue] of [u] units
    is [c], then [ScaledValue] of [-u] units at the same scale is [-c]. *)
Theorem ScaledValue_odd h v w D u scaleExp :
  amount h v D u -> amount h w D (- u) ->
  0 <= UnitExp D <= Decimal.MaxInt32 ->
  Decimal.MinInt32 <= scaleExp <= Decimal.MaxInt32 ->
  UnitExp D - scaleExp <= Decimal.MaxInt32 ->
  exists c,
    Types.ScaledValue v scaleExp h = (Ret c, h) /\
    Types.ScaledValue w scaleExp h
    = (Ret (Decimal.mkDec (- Decimal.dvalue c) (Decimal.dexp c)), h).
Proof.
  intros Hv Hw HU Hs He. eexists. split.
  - rewrite (ScaledValue_amount _ _ _ _ _ Hv).
    now rewrite DivRound_pow10 by assumption.
  - rewrite (ScaledValue_amount _ _ _ _ _ Hw).
    rewrite DivRound_pow10 by assumption.
    now rewrite div_pow10_round_opp.
Qed.

Lemma ScaledValue_odd_witness :
  exists c,
    Types.ScaledValue (Some 0%nat) 19 plus_minus = (Ret c, plus_minus) /\
    Types.ScaledValue (Some 1%nat) 19 plus_minus
    = (Ret (Decimal.mkDec (- Decimal.dvalue c) (Decimal.dexp c)), plus_minus).
Proof.
  apply (ScaledValue_odd plus_minus (Some 0%nat) (Some 1%nat) Eth.ethDefinition 7 19).
  - exists (Some 0%nat). split; [exists 0%nat|exists 0%nat]; now split.
  - exists (Some 1%nat). split; [exists 1%nat|exists 1%nat]; now split.
  - vm_compute. split; discriminate.
  - vm_compute. split; discriminate.
  - vm_compute. discriminate.
Defined.

(** ** The Ether binding *)

Lemma Eth_unit_exponent : 0 <= UnitExp Eth.ethDefinition <= Decimal.MaxInt32.
Proof. vm_compute. split; discriminate. Qed.

Lemma Eth_scale (s : Z) :
  0 <= s <= 18 -> Decimal.MinInt32 <= s <= UnitExp Eth.ethDefinition.
Proof. unfold Decimal.MinInt32. cbn [UnitExp Eth.ethDefinition]. lia. Qed.

Lemma Eth_scale_diff (s : Z) :
  0 <= s <= 18 -> UnitExp Eth.ethDefinition - s <= Decimal.MaxInt32.
Proof. unfold Decimal.MaxInt32. cbn [UnitExp Eth.ethDefinition]. lia. Qed.

Lemma Eth_accessor_number h e u s :
  amount h e Eth.ethDefinition u -> 0 <= s <= 18 ->
  exists c, Types.ScaledValue e s h = (Ret c, h)
            /\ Rounding.to_Q c == inject_Z u / 10 ^ s.
Proof.
  intros He Hs. eexists. split.
  - apply (ScaledValue_exact h e Eth.ethDefinition u s He);
      unfold Decimal.MinInt32, Decimal.MaxInt32; cbn [UnitExp Eth.ethDefinition]; lia.
  - rewrite to_Q_int_pow by (cbn [UnitExp Eth.ethDefinition]; lia).
    replace (UnitExp Eth.ethDefinition - s + - UnitExp Eth.ethDefinition)
      with (- s) by lia.
    now rewrite Qpower_opp.
Qed.

(** X16: the accessors of the Ether binding are exact. For an amount of
    [u] wei, [KWei], [MWei], [GWei] and [Eth] return, without rounding,
    [u / 10^3], [u / 10^6], [u / 10^9] and [u / 10^18]. *)
Theorem Eth_accessors_exact h e u :
  amount h e Eth.ethDefinition u ->
  (exists c, Eth.KWei e h = (Ret c, h) /\ Rounding.to_Q c == inject_Z u / 10 ^ 3) /\
  (exists c, Eth.MWei e h = (Ret c, h) /\ Rounding.to_Q c == inject_Z u / 10 ^ 6) /\
  (exists c, Eth.GWei e h = (Ret c, h) /\ Rounding.to_Q c == inject_Z u / 10 ^ 9) /\
  (exists c, Eth.Eth e h = (Ret c, h) /\ Rounding.to_Q c == inject_Z u / 10 ^ 18).
Proof.
  intros He. unfold Eth.KWei, Eth.MWei, Eth.GWei, Eth.Eth.
  split; [apply Eth_accessor_number; [assumption|lia]|].
  split; [apply Eth_accessor_number; [assumption|lia]|].
  split; [apply Eth_accessor_number; [assumption|lia]|].
  pose proof He as (p & Pe & _).
  rewrite (Coins_ScaledValue _ _ _ Pe).
  apply (Eth_accessor_number h e u 18 He). lia.
Qed.

Lemma Eth_accessors_exact_witness :
  (exists c, Eth.KWei (Some 4%nat) sample = (Ret c, sample)
             /\ Rounding.to_Q c == inject_Z 7 / 10 ^ 3) /\
  (exists c, Eth.MWei (Some 4%nat) sample = (Ret c, sample)
             /\ Rounding.to_Q c == inject_Z 7 / 10 ^ 6) /\
  (exists c, Eth.GWei (Some 4%nat) sample = (Ret c, sample)
             /\ Rounding.to_Q c == inject_Z 7 / 10 ^ 9) /\
  (exists c, Eth.Eth (Some 4%nat) sample = (Ret c, sample)
             /\ Rounding.to_Q c == inject_Z 7 / 10 ^ 18).
Proof.
  apply (Eth_accessors_exact sample (Some 4%nat) 7).
  now apply (sample_amount 4 3).
Defined.

(** X17: what goes in comes out for ether, for gwei and for wei, in any
    store. A decimal of ether with at most 18 decimals passes through
    [NewEth] and [Eth] unchanged in value, a decimal of gwei with at most 9
    decimals through [NewEthFromGWeil] and [GWei], and [NewEthFromWei]
    followed by [Wei] gives back the very pointer. *)
Theorem Eth_round_trips h :
  (forall d,
      0 <= Decimal.dexp d + 18 <= Decimal.MaxInt32 ->
      exists e h' c, Eth.NewEth d h = (Ret e, h') /\ Eth.Eth e h' = (Ret c, h')
                     /\ Rounding.to_Q c == Rounding.to_Q d) /\
  (forall g,
      0 <= Decimal.dexp g + 9 <= Decimal.MaxInt32 ->
      exists e h' c, Eth.NewEthFromGWeil g h = (Ret e, h') /\ Eth.GWei e h' = (Ret c, h')
                     /\ Rounding.to_Q c == Rounding.to_Q g) /\
  (forall p u,
      int_at h p u ->
      exists e h', Eth.NewEthFromWei p h = (Ret e, h') /\ Eth.Wei e h' = (Ret p, h')).
Proof.
  split; [|split].
  - intros d Hd.
    destruct (FromCoins_Coins_numbers Eth.ethDefinition d h Eth_unit_exponent Hd)
      as (e & h' & c & A & B & _ & C).
    now exists e, h', c.
  - intros g Hg.
    destruct (FromScaled_ScaledValue_numbers Eth.ethDefinition g 9 h
                Eth_unit_exponent (Eth_scale 9 ltac:(lia)) (Eth_scale_diff 9 ltac:(lia)) Hg)
      as (e & h' & c & A & B & _ & C).
    exists e, h', c. split; [exact A|]. split; [exact B|]. now apply C.
  - intros p u (k & -> & Hk).
    eexists _, _. split; [reflexivity|].
    unfold Eth.Wei, Types.Units, bind, ret, Types.load. cbn [coins].
    now rewrite lookup_snoc_new.
Qed.

Lemma Eth_round_trips_witness :
  (exists e h' c, Eth.NewEth (Decimal.mkDec 15 (-1)) empty_heap = (Ret e, h')
                  /\ Eth.Eth e h' = (Ret c, h')
                  /\ Rounding.to_Q c == Rounding.to_Q (Decimal.mkDec 15 (-1))) /\
  (exists e h' c, Eth.NewEthFromGWeil (Decimal.mkDec 25 (-1)) empty_heap = (Ret e, h')
                  /\ Eth.GWei e h' = (Ret c, h')
                  /\ Rounding.to_Q c == Rounding.to_Q (Decimal.mkDec 25 (-1))) /\
  (exists e h', Eth.NewEthFromWei (Some 3%nat) sample = (Ret e, h')
                /\ Eth.Wei e h' = (Ret (Some 3%nat), h')).
Proof.
  split; [|split].
  - apply (proj1 (Eth_round_trips empty_heap) (Decimal.mkDec 15 (-1))).
    vm_compute. split; discriminate.
  - apply (proj1 (proj2 (Eth_round_trips empty_heap)) (Decimal.mkDec 25 (-1))).
    vm_compute. split; discriminate.
  - apply (proj2 (proj2 (Eth_round_trips sample)) (Some 3%nat) 7).
    exists 3%nat. now split.
Defined.

(** X18: for kwei and mwei, what goes in does not come out.
    [NewEthFromKWei] stores a decimal [d] as [d * 10^15] wei, so that
    [KWei] reads it back as [d * 10^12]; [NewEthFromMWei] stores [d] as
    [d * 10^12] wei, and [MWei] reads it back as [d * 10^6]. *)
Theorem Eth_kwei_mwei_scale k m h :
  0 <= Decimal.dexp k + 15 <= Decimal.MaxInt32 ->
  0 <= Decimal.dexp m + 12 <= Decimal.MaxInt32 ->
  (exists e h' c,
      Eth.NewEthFromKWei k h = (Ret e, h') /\
      Types.units_of h' e = Some (Decimal.dvalue k * 10 ^ (Decimal.dexp k + 15)) /\
      Eth.KWei e h' = (Ret c, h') /\
      Rounding.to_Q c == Rounding.to_Q k * 10 ^ 12) /\
  (exists e h' c,
      Eth.NewEthFromMWei m h = (Ret e, h') /\
      Types.units_of h' e = Some (Decimal.dvalue m * 10 ^ (Decimal.dexp m + 12)) /\
      Eth.MWei e h' = (Ret c, h') /\
      Rounding.to_Q c == Rounding.to_Q m * 10 ^ 6).
Proof.
  intros Hk Hm.
  assert (W : forall s, 0 <= s <= 18 -> Decimal.wrap32 (18 - s) = 18 - s)
    by (intros; apply wrap32_id; unfold Decimal.MinInt32, Decimal.MaxInt32; lia).
  split.
  - destruct (FromScaled_ScaledValue_numbers Eth.ethDefinition k 3 h
                Eth_unit_exponent (Eth_scale 3 ltac:(lia)) (Eth_scale_diff 3 ltac:(lia)) Hk)
      as (e & h' & c & A & B & C & _).
    exists e, h', c. split; [exact A|]. split; [|split; [exact B|exact C]].
    pose proof (from_decimal_exact Eth.ethDefinition k
                  (fun D => Decimal.wrap32 (UnitExp D - 3)) h) as R.
    cbv beta in R. cbn [UnitExp Eth.ethDefinition] in R.
    rewrite (W 3 ltac:(lia)) in R. change (18 - 3) with 15 in R.
    specialize (R Hk). unfold Types.NewCoinValueFromScaled in A.
    rewrite R in A. inversion A; subst.
    exact (units_of_amount _ _ _ _ (with_decimal_amount h Eth.ethDefinition _)).
  - destruct (FromScaled_ScaledValue_numbers Eth.ethDefinition m 6 h
                Eth_unit_exponent (Eth_scale 6 ltac:(lia)) (Eth_scale_diff 6 ltac:(lia)) Hm)
      as (e & h' & c & A & B & C & _).
    exists e, h', c. split; [exact A|]. split; [|split; [exact B|exact C]].
    pose proof (from_decimal_exact Eth.ethDefinition m
                  (fun D => Decimal.wrap32 (UnitExp D - 6)) h) as R.
    cbv beta in R. cbn [UnitExp Eth.ethDefinition] in R.
    rewrite (W 6 ltac:(lia)) in R. change (18 - 6) with 12 in R.
    specialize (R Hm). unfold Types.NewCoinValueFromScaled in A.
    rewrite R in A. inversion A; subst.
    exact (units_of_amount _ _ _ _ (with_decimal_amount h Eth.ethDefinition _)).
Qed.

Lemma Eth_kwei_mwei_scale_witness :
  (exists e h' c,
      Eth.NewEthFromKWei (Decimal.mkDec 1 0) empty_heap = (Ret e, h') /\
      Types.units_of h' e = Some (1 * 10 ^ (0 + 15)) /\
      Eth.KWei e h' = (Ret c, h') /\
      Rounding.to_Q c == Rounding.to_Q (Decimal.mkDec 1 0) * 10 ^ 12) /\
  (exists e h' c,
      Eth.NewEthFromMWei (Decimal.mkDec 1 0) empty_heap = (Ret e, h') /\
      Types.units_of h' e = Some (1 * 10 ^ (0 + 12)) /\
      Eth.MWei e h' = (Ret c, h') /\
      Rounding.to_Q c == Rounding.to_Q (Decimal.mkDec 1 0) * 10 ^ 6).
Proof.
  apply (Eth_kwei_mwei_scale (Decimal.mkDec 1 0) (Decimal.mkDec 1 0) empty_heap);
    vm_compute; split; discriminate.
Defined.

(** ** Addresses and contracts *)

Lemma valid_address_length (s : string) :
  EthAddress.IsValidAddress s = true -> String.length s = 42%nat.
Proof.
  rewrite IsValidAddress_shape, <- length_list_ascii_of_string.
  destruct (list_ascii_of_string s) as [|c0 [|c1 ds]]; try discriminate.
  cbn [address_shape length]. intros H.
  repeat (apply andb_prop in H as [H ?]).
  match goal with E : Nat.eqb _ _ = true |- _ => apply Nat.eqb_eq in E; now rewrite E end.
Qed.

Lemma length_append (s t : string) :
  String.length (s ++ t) = (String.length s + String.length t)%nat.
Proof. induction s as [|c s IH]; cbn; [reflexivity|now rewrite IH]. Qed.

(** X19: nothing may come before or after an address. If [s] is valid
    and [t] is not empty, neither [s] followed by [t] nor [t] followed by
    [s] is valid: no trailing newline, no surrounding space, no second
    address. *)
Theorem IsValidAddress_no_extension (s t : string) :
  EthAddress.IsValidAddress s = true -> t <> EmptyString ->
  EthAddress.IsValidAddress (s ++ t) = false /\
  EthAddress.IsValidAddress (t ++ s) = false.
Proof.
  intros Hs Ht. apply valid_address_length in Hs.
  assert (0 < String.length t)%nat by (destruct t; [contradiction|cbn; lia]).
  split; apply not_true_is_false; intros T; apply valid_address_length in T;
    rewrite length_append in T; lia.
Qed.

Lemma IsValidAddress_no_extension_witness :
  EthAddress.IsValidAddress (zero_address ++ String "010" EmptyString) = false /\
  EthAddress.IsValidAddress (String "010" EmptyString ++ zero_address) = false.
Proof.
  apply (IsValidAddress_no_extension zero_address (String "010" EmptyString)).
  - reflexivity.
  - discriminate.
Defined.

(** X20: [IsSmartContractCtx] answers true only for a valid address for
    which the node returned bytecode that is not empty, and then without
    an error; it sends one request when the address is valid and none
    otherwise. *)
Theorem IsSmartContractCtx_sound
    (Address : Type) (HexToAddress : string -> Address)
    (CodeAt : list Address -> Address -> list ascii + EthAddress.error)
    (address : string) (w : list Address) :
  let out := EthAddress.IsSmartContractCtx Address HexToAddress CodeAt address w in
  (fst (fst out) = true ->
   EthAddress.IsValidAddress address = true /\
   snd (fst out) = None /\
   exists byteCode, CodeAt w (HexToAddress address) = inl byteCode /\ byteCode <> []) /\
  snd out = (if EthAddress.IsValidAddress address
             then w ++ [HexToAddress address] else w).
Proof.
  cbv zeta. unfold EthAddress.IsSmartContractCtx, EthAddress.call_CodeAt.
  destruct (EthAddress.IsValidAddress address); cbn [negb].
  - destruct (CodeAt w (HexToAddress address)) as [code|err]; cbn [fst snd].
    + split; [|reflexivity]. intros H. split; [reflexivity|]. split; [reflexivity|].
      exists code. split; [reflexivity|]. intros ->. discriminate.
    + split; [discriminate|reflexivity].
  - cbn [fst snd]. split; [discriminate|reflexivity].
Qed.

Lemma IsSmartContractCtx_sound_witness :
  EthAddress.IsValidAddress mixed_address = true /\
  snd (fst (EthAddress.IsSmartContractCtx string id sample_node mixed_address []))
  = None /\
  exists byteCode, sample_node [] (id mixed_address) = inl byteCode /\ byteCode <> [].
Proof.
  apply (proj1 (IsSmartContractCtx_sound string id sample_node mixed_address [])).
  reflexivity.
Defined.

(** X21: when the node fails, [IsSmartContractCtx] and [IsSmartContract]
    answer false with the error of the node wrapped behind "failed to get
    bytecode: ", after the one request. *)
Theorem IsSmartContract_transport_failure
    (Address : Type) (HexToAddress : string -> Address)
    (CodeAt : list Address -> Address -> list ascii + EthAddress.error)
    (address : string) (w : list Address) (err : EthAddress.error) :
  EthAddress.IsValidAddress address = true ->
  CodeAt w (HexToAddress address) = inr err ->
  EthAddress.IsSmartContractCtx Address HexToAddress CodeAt address w
  = ((false, Some (EthAddress.ErrorWrap "failed to get bytecode: " err)),
     w ++ [HexToAddress address]) /\
  EthAddress.IsSmartContract Address HexToAddress CodeAt address w
  = ((false, Some (EthAddress.ErrorWrap "failed to get bytecode: " err)),
     w ++ [HexToAddress address]).
Proof.
  intros Hv He.
  unfold EthAddress.IsSmartContract, EthAddress.IsSmartContractCtx,
    EthAddress.call_CodeAt.
  rewrite Hv, He. split; reflexivity.
Qed.

Lemma IsSmartContract_transport_failure_witness :
  EthAddress.IsSmartContractCtx string id unreachable_node zero_address []
  = ((false, Some (EthAddress.ErrorWrap "failed to get bytecode: "
                     (EthAddress.ErrorNew "connection refused"))),
     [] ++ [id zero_address]) /\
  EthAddress.IsSmartContract string id unreachable_node zero_address []
  = ((false, Some (EthAddress.ErrorWrap "failed to get bytecode: "
                     (EthAddress.ErrorNew "connection refused"))),
     [] ++ [id zero_address]).
Proof.
  apply (IsSmartContract_transport_failure string id unreachable_node zero_address []
           (EthAddress.ErrorNew "connection refused")); reflexivity.
Defined.
